(** * letsdebug: the checker core (checker.go)

    A shallow embedding of [checker.go]: the table of validation methods and
    the concurrent checker group [asyncCheckerBlock.Check].

    The group is a Go program of [len(c) + 2] goroutines that communicate
    through two buffered channels and a [sync.WaitGroup].  It is embedded as
    a labelled transition system: a state holds the wait-group counter, the
    two channels and one program counter per goroutine; a label names the
    goroutine that the scheduler runs next (and, for the [select] of the
    aggregating goroutine, the ready case that is picked).  [step] is the
    executable one-step function, [run] executes a whole schedule. *)

From stdpp Require Import base option list strings gmap.

(* ===================================================================== *)
(** ** Validation methods *)
(* ===================================================================== *)

(** [type ValidationMethod string] *)
Definition ValidationMethod : Type := string.

Definition HTTP01 : ValidationMethod := "http-01"%string.
Definition DNS01 : ValidationMethod := "dns-01"%string.
Definition TLSSNI01 : ValidationMethod := "tls-sni-01"%string.
Definition TLSSNI02 : ValidationMethod := "tls-sni-02"%string.

(** [validMethods = map[ValidationMethod]bool{HTTP01: true, DNS01: true,
    TLSSNI01: true, TLSSNI02: true}] *)
Definition validMethods : gmap string bool :=
  <[HTTP01:=true]> (<[DNS01:=true]> (<[TLSSNI01:=true]> (<[TLSSNI02:=true]> ∅))).

(** Modelled from the spec: the function [isValid] is not in [checker.go],
    which only declares the table; the spec describes it as the membership
    query "backed by a fixed membership table".  It is the Go index
    expression [validMethods[method]], which yields the zero value [false]
    for a key that is absent. *)
Definition isValid (method : ValidationMethod) : bool :=
  default false (validMethods !! method).

(* ===================================================================== *)
(** ** Errors *)
(* ===================================================================== *)

(** A Go [error] that is not nil.  [errors.New] returns a pointer to a fresh
    [errorString]; two such values are equal exactly when the pointers are,
    whatever their texts.  [ErrorString p text] is the value at address [p].
    [Errorf text] is a value that [fmt.Errorf] allocates during the call of
    [asyncCheckerBlock.Check]: its pointer is fresh, so it differs from every
    value that was made before, [errNotApplicable] included.  The nil error is
    [None] in [option error]. *)
Inductive error : Type :=
  | ErrorString (ptr : N) (text : string)
  | Errorf (text : string).

(** The address of the package-level value [errNotApplicable]. *)
Definition errNotApplicable_ptr : N := 1%N.

(** [errNotApplicable = errors.New("Checker not applicable for this domain and method")] *)
Definition errNotApplicable : error :=
  ErrorString errNotApplicable_ptr "Checker not applicable for this domain and method"%string.

(** [err == errNotApplicable] on non-nil [err]: a comparison of pointers. *)
Definition is_errNotApplicable (err : error) : bool :=
  match err with
  | ErrorString p _ => (p =? errNotApplicable_ptr)%N
  | Errorf _ => false
  end.

(** The condition of the member goroutine: [err != nil && err != errNotApplicable]. *)
Definition is_real_error (err : option error) : bool :=
  match err with
  | None => false
  | Some e => negb (is_errNotApplicable e)
  end.

(** [fmt.Errorf("panic: %v", r)], with the recovered value [r] given by the
    text that [%v] prints for it. *)
Definition panic_error (r : string) : error := Errorf ("panic: " +:+ r)%string.

(* ===================================================================== *)
(** ** Channels *)
(* ===================================================================== *)

(** A buffered channel [make(chan A, cap)]: the queue of values in the
    buffer.  [sent] and [rcvd] are history counters of the completed sends
    and receives; no operation reads them, they are there to state the
    traffic on the channel. *)
Record chan (A : Type) : Type := Chan {
  cap : nat;
  buf : list A;
  sent : nat;
  rcvd : nat
}.
Arguments Chan {A} _ _ _ _.
Arguments cap {A} _.
Arguments buf {A} _.
Arguments sent {A} _.
Arguments rcvd {A} _.

Definition make_chan {A : Type} (n : nat) : chan A := Chan n [] 0 0.

(** [c <- x]: possible when the buffer is not full, otherwise the sender
    blocks ([None]).  With [cap = 0] a send needs a receiver that is waiting;
    the only channel of capacity 0 here belongs to the empty group, whose
    aggregator never receives, so such a send blocks for ever. *)
Definition chan_send {A : Type} (c : chan A) (x : A) : option (chan A) :=
  if decide (length (buf c) < cap c)
  then Some (Chan (cap c) (buf c ++ [x]) (S (sent c)) (rcvd c))
  else None.

(** [<-c]: possible when the buffer is not empty. *)
Definition chan_recv {A : Type} (c : chan A) : option (A * chan A) :=
  match buf c with
  | [] => None
  | x :: b => Some (x, Chan (cap c) b (sent c) (S (rcvd c)))
  end.

(* ===================================================================== *)
(** ** The concurrent checker group *)
(* ===================================================================== *)

Section Group.

(** [Problem] is declared in another file of the package; the group only
    moves slices of it around. *)
Context {Problem : Type}.

(** What a call [chk.Check(ctx, domain, method)] of a member does, for the
    arguments of this call of the group: it returns a pair; it panics with a
    value; it ends its goroutine with [runtime.Goexit], which runs the
    deferred function with no panic to recover; or it blocks for ever, so
    that the goroutine makes no further step.  The value of a panic is given
    by the text that [%v] prints for it; it is never nil for [recover]
    (since Go 1.21 [panic(nil)] is recovered as a [*runtime.PanicNilError]).
    What ends the whole process ([os.Exit], a fatal error of the runtime) is
    outside the model. *)
Inductive outcome : Type :=
  | Returns (probs : list Problem) (err : option error)
  | Panics (r : string)
  | Goexits
  | Hangs.

(** Program counter of a member goroutine [go func(chk checker) {...}]. *)
Inductive member_pc : Type :=
  | MCheck                         (* at [probs, err := chk.Check(...)] *)
  | MSendErr (err : error)         (* at [errChan <- err] *)
  | MSendProbs (probs : list Problem) (* at [resultsChan <- probs] *)
  | MDone                          (* deferred function, [recover() == nil], at [wg.Done()] *)
  | MRecover (r : string)          (* deferred function, [recover() == r], at [errChan <- fmt.Errorf(...)] *)
  | MExited                        (* finished, after [wg.Done()] *)
  | MExitedPanic.                  (* finished, after the send of the panic error *)

(** Program counter of the goroutine [go func() { wg.Wait(); errChan <- nil }()]. *)
Inductive coord_pc : Type :=
  | CWait
  | CSend
  | CExited.

(** The calling goroutine, once every member is launched: in the loop
    [for i := 0; i < len(c); i++] with the accumulator [probs], or returned. *)
Inductive main_pc : Type :=
  | ALoop (i : nat) (probs : list Problem)
  | AReturned (probs : list Problem) (err : option error).

Record state : Type := State {
  wg : nat;
  errChan : chan (option error);
  resultsChan : chan (list Problem);
  members : list member_pc;
  coord : coord_pc;
  main : main_pc
}.

(** The scheduler's choice. *)
Inductive label : Type :=
  | Member (k : nat)
  | Coordinator
  | SelectResults
  | SelectErr
  | LoopExit.

(** The member goroutine right after [chk.Check] is over:
    [if err != nil && err != errNotApplicable { errChan <- err; return }]
    and [resultsChan <- probs] otherwise; a panic unwinds to the deferred
    function, where [recover()] gives its value; [runtime.Goexit] runs the
    deferred function too, where [recover()] gives nil, so that the next
    thing is [wg.Done()]. *)
Definition after_check (o : outcome) : option member_pc :=
  match o with
  | Returns probs err =>
      match err with
      | Some e => if is_real_error err then Some (MSendErr e) else Some (MSendProbs probs)
      | None => Some (MSendProbs probs)
      end
  | Panics r => Some (MRecover r)
  | Goexits => Some MDone
  | Hangs => None
  end.

Definition set_member (k : nat) (pc : member_pc) (s : state) : state :=
  State (wg s) (errChan s) (resultsChan s) (<[k:=pc]> (members s)) (coord s) (main s).

(** One step of member [k] of the group [c]. *)
Definition member_step (c : list outcome) (k : nat) (s : state) : option state :=
  match members s !! k with
  | Some MCheck =>
      o ← c !! k;
      pc ← after_check o;
      Some (set_member k pc s)
  | Some (MSendErr e) =>
      ch ← chan_send (errChan s) (Some e);
      Some (State (wg s) ch (resultsChan s) (<[k:=MDone]> (members s)) (coord s) (main s))
  | Some (MSendProbs probs) =>
      ch ← chan_send (resultsChan s) probs;
      Some (State (wg s) (errChan s) ch (<[k:=MDone]> (members s)) (coord s) (main s))
  | Some MDone =>
      (* [wg.Done()]; it panics on a counter that is already 0 *)
      match wg s with
      | 0 => None
      | S n => Some (State n (errChan s) (resultsChan s) (<[k:=MExited]> (members s)) (coord s) (main s))
      end
  | Some (MRecover r) =>
      ch ← chan_send (errChan s) (Some (panic_error r));
      Some (State (wg s) ch (resultsChan s) (<[k:=MExitedPanic]> (members s)) (coord s) (main s))
  | Some MExited | Some MExitedPanic | None => None
  end.

(** One step of the goroutine that waits for the group. *)
Definition coord_step (s : state) : option state :=
  match coord s with
  | CWait =>
      if decide (wg s = 0)
      then Some (State (wg s) (errChan s) (resultsChan s) (members s) CSend (main s))
      else None
  | CSend =>
      ch ← chan_send (errChan s) None;
      Some (State (wg s) ch (resultsChan s) (members s) CExited (main s))
  | CExited => None
  end.

(** [if len(checkerProbs) > 0 { probs = append(probs, checkerProbs...) }] *)
Definition store (probs checkerProbs : list Problem) : list Problem :=
  if decide (0 < length checkerProbs) then probs ++ checkerProbs else probs.

(** One step of the calling goroutine: a case of the [select] that is ready,
    or the end of the loop. *)
Definition main_step (c : list outcome) (l : label) (s : state) : option state :=
  match main s with
  | ALoop i probs =>
      match l with
      | SelectResults =>
          if decide (i < length c) then
            '(checkerProbs, ch) ← chan_recv (resultsChan s);
            Some (State (wg s) (errChan s) ch (members s) (coord s)
                        (ALoop (S i) (store probs checkerProbs)))
          else None
      | SelectErr =>
          if decide (i < length c) then
            '(err, ch) ← chan_recv (errChan s);
            Some (State (wg s) ch (resultsChan s) (members s) (coord s)
                        (AReturned probs err))
          else None
      | LoopExit =>
          if decide (i < length c) then None
          else Some (State (wg s) (errChan s) (resultsChan s) (members s) (coord s)
                           (AReturned probs None))
      | _ => None
      end
  | AReturned _ _ => None
  end.

Definition step (c : list outcome) (l : label) (s : state) : option state :=
  match l with
  | Member k => member_step c k s
  | Coordinator => coord_step s
  | _ => main_step c l s
  end.

(** The state when the calling goroutine reaches its loop: [wg.Add(len(c))],
    both channels made with capacity [len(c)], every goroutine launched and
    none of them started.  (A goroutine that starts before the last one is
    launched touches nothing that the launching loop reads, so its steps
    commute with the launches.) *)
Definition init (c : list outcome) : state :=
  State (length c) (make_chan (length c)) (make_chan (length c))
        (replicate (length c) MCheck) CWait (ALoop 0 []).

(** Runs a schedule; [None] when it asks for a step that is not possible. *)
Fixpoint run (c : list outcome) (sched : list label) (s : state) : option state :=
  match sched with
  | [] => Some s
  | l :: sched' => s' ← step c l s; run c sched' s'
  end.

(** No goroutine can move. *)
Definition terminal (c : list outcome) (s : state) : Prop :=
  ∀ l, step c l s = None.

(* --------------------------------------------------------------------- *)
(** *** The step function as a relation *)

(** [trans c s l s'] lists the nine kinds of step one by one; it is the
    graph of [step] (lemma [step_trans]). *)
Inductive trans (c : list outcome) : state → label → state → Prop :=
  | T_check w ec rc ms co mn k o pc :
      ms !! k = Some MCheck → c !! k = Some o → after_check o = Some pc →
      trans c (State w ec rc ms co mn) (Member k)
              (State w ec rc (<[k:=pc]> ms) co mn)
  | T_send_err w ec rc ms co mn k e :
      ms !! k = Some (MSendErr e) → length (buf ec) < cap ec →
      trans c (State w ec rc ms co mn) (Member k)
              (State w (Chan (cap ec) (buf ec ++ [Some e]) (S (sent ec)) (rcvd ec)) rc
                     (<[k:=MDone]> ms) co mn)
  | T_send_probs w ec rc ms co mn k probs :
      ms !! k = Some (MSendProbs probs) → length (buf rc) < cap rc →
      trans c (State w ec rc ms co mn) (Member k)
              (State w ec (Chan (cap rc) (buf rc ++ [probs]) (S (sent rc)) (rcvd rc))
                     (<[k:=MDone]> ms) co mn)
  | T_done w ec rc ms co mn k :
      ms !! k = Some MDone →
      trans c (State (S w) ec rc ms co mn) (Member k)
              (State w ec rc (<[k:=MExited]> ms) co mn)
  | T_recover w ec rc ms co mn k r :
      ms !! k = Some (MRecover r) → length (buf ec) < cap ec →
      trans c (State w ec rc ms co mn) (Member k)
              (State w (Chan (cap ec) (buf ec ++ [Some (panic_error r)]) (S (sent ec)) (rcvd ec)) rc
                     (<[k:=MExitedPanic]> ms) co mn)
  | T_wake ec rc ms mn :
      trans c (State 0 ec rc ms CWait mn) Coordinator (State 0 ec rc ms CSend mn)
  | T_nil w ec rc ms mn :
      length (buf ec) < cap ec →
      trans c (State w ec rc ms CSend mn) Coordinator
              (State w (Chan (cap ec) (buf ec ++ [None]) (S (sent ec)) (rcvd ec)) rc ms CExited mn)
  | T_recv_results w ec rc ms co i probs checkerProbs b :
      i < length c → buf rc = checkerProbs :: b →
      trans c (State w ec rc ms co (ALoop i probs)) SelectResults
              (State w ec (Chan (cap rc) b (sent rc) (S (rcvd rc))) ms co
                     (ALoop (S i) (store probs checkerProbs)))
  | T_recv_err w ec rc ms co i probs err b :
      i < length c → buf ec = err :: b →
      trans c (State w ec rc ms co (ALoop i probs)) SelectErr
              (State w (Chan (cap ec) b (sent ec) (S (rcvd ec))) rc ms co
                     (AReturned probs err))
  | T_exit w ec rc ms co i probs :
      ¬ i < length c →
      trans c (State w ec rc ms co (ALoop i probs)) LoopExit
              (State w ec rc ms co (AReturned probs None)).

(** States that some schedule reaches from the start of the call. *)
Definition reachable (c : list outcome) (s : state) : Prop :=
  ∃ sched, run c sched (init c) = Some s.

(* --------------------------------------------------------------------- *)
(** *** Vocabulary of the invariants *)

(** The member completes normally: it returns and its error is nil or the
    sentinel. *)
Definition normal (o : outcome) : bool :=
  match o with
  | Returns _ err => negb (is_real_error err)
  | _ => false
  end.

(** The error that a failing member puts on [errChan]. *)
Definition failure (o : outcome) : option error :=
  match o with
  | Returns _ (Some e) => if is_real_error (Some e) then Some e else None
  | Returns _ None => None
  | Panics r => Some (panic_error r)
  | Goexits => None
  | Hangs => None
  end.

(** The problems that member [k] returns. *)
Definition output (c : list outcome) (k : nat) : list Problem :=
  match c !! k with
  | Some (Returns probs _) => probs
  | _ => []
  end.

(** Which program counters a member with outcome [o] can be at. *)
Definition pc_ok (o : outcome) (pc : member_pc) : Prop :=
  match pc, o with
  | MCheck, _ => True
  | MSendErr e, Returns _ err => err = Some e ∧ is_real_error err = true
  | MSendProbs q, Returns p err => q = p ∧ is_real_error err = false
  | MDone, Returns _ _ => True
  | MExited, Returns _ _ => True
  | MDone, Goexits => True
  | MExited, Goexits => True
  | MRecover r', Panics r => r' = r
  | MExitedPanic, Panics _ => True
  | _, _ => False
  end.

Definition exited (o : outcome) (pc : member_pc) : bool :=
  match pc with MExited => true | _ => false end.

Definition past_send (pc : member_pc) : bool :=
  match pc with MDone | MExited => true | _ => false end.

(** The member has completed its send on [resultsChan]. *)
Definition res_sent (o : outcome) (pc : member_pc) : bool :=
  past_send pc && normal o.

(** The member returns an error that is not nil and not the sentinel. *)
Definition real_return (o : outcome) : bool :=
  match o with
  | Returns _ err => is_real_error err
  | _ => false
  end.

(** The member has completed its send on [errChan]. *)
Definition err_sent (o : outcome) (pc : member_pc) : bool :=
  match pc with
  | MExitedPanic => true
  | _ => past_send pc && real_return o
  end.

(** Number of members [k] with [P (c k) (ms k)]. *)
Definition count2 (P : outcome → member_pc → bool)
    (c : list outcome) (ms : list member_pc) : nat :=
  sum_list (zip_with (λ o pc, if P o pc then 1 else 0) c ms).

Definition nil_sent (co : coord_pc) : nat :=
  match co with CExited => 1 | _ => 0 end.

Definition accumulator (mn : main_pc) : list Problem :=
  match mn with ALoop _ probs => probs | AReturned probs _ => probs end.

(** Counters: wait group, traffic on both channels, position of the loop. *)
Record inv_count (c : list outcome) (s : state) : Prop := InvCount {
  ic_pcs : Forall2 pc_ok c (members s);
  ic_cap_err : cap (errChan s) = length c;
  ic_cap_res : cap (resultsChan s) = length c;
  ic_wg : wg s + count2 exited c (members s) = length c;
  ic_sent_res : sent (resultsChan s) = count2 res_sent c (members s);
  ic_sent_err : sent (errChan s) = count2 err_sent c (members s) + nil_sent (coord s);
  ic_buf_res : length (buf (resultsChan s)) + rcvd (resultsChan s) = sent (resultsChan s);
  ic_buf_err : length (buf (errChan s)) + rcvd (errChan s) = sent (errChan s);
  ic_coord : coord s ≠ CWait → wg s = 0;
  ic_main :
    match main s with
    | ALoop i _ => rcvd (resultsChan s) = i ∧ rcvd (errChan s) = 0 ∧ i ≤ length c
    | AReturned _ err =>
        rcvd (errChan s) = 1 ∨
        (rcvd (errChan s) = 0 ∧ rcvd (resultsChan s) = length c ∧ err = None)
    end
}.

(** What is on [errChan], and what the call returns. *)
Record inv_err (c : list outcome) (s : state) : Prop := InvErr {
  ie_nil : ∀ i, buf (errChan s) !! i = Some None →
      coord s = CExited ∧ S i = length (buf (errChan s));
  ie_from : ∀ e, Some e ∈ buf (errChan s) → ∃ k o, c !! k = Some o ∧ failure o = Some e;
  ie_delivered : ∀ k o pc e, c !! k = Some o → members s !! k = Some pc →
      err_sent o pc = true → failure o = Some e →
      Some e ∈ buf (errChan s) ∨ ∃ probs, main s = AReturned probs (Some e);
  ie_ret_some : ∀ probs e, main s = AReturned probs (Some e) →
      ∃ k o, c !! k = Some o ∧ failure o = Some e;
  ie_ret_nil : ∀ probs, main s = AReturned probs None →
      ∀ k o, c !! k = Some o → failure o = None ∧ o ≠ Hangs
}.

(** What is on [resultsChan] and in the accumulator: the outputs of members
    [ks2] and [ks1]; these are the members that have sent, none twice. *)
Definition inv_res (c : list outcome) (s : state) : Prop :=
  ∃ ks1 ks2 : list nat,
    NoDup (ks1 ++ ks2) ∧
    (∀ k, k ∈ ks1 ++ ks2 ↔
        ∃ o pc, c !! k = Some o ∧ members s !! k = Some pc ∧ res_sent o pc = true) ∧
    buf (resultsChan s) = output c <$> ks2 ∧
    accumulator (main s) = concat (output c <$> ks1) ∧
    length ks1 = rcvd (resultsChan s).

Definition inv (c : list outcome) (s : state) : Prop :=
  inv_count c s ∧ inv_err c s ∧ inv_res c s.

(** Steps that are left: an upper bound that every step lowers. *)
Definition member_fuel (pc : member_pc) : nat :=
  match pc with
  | MCheck => 3
  | MSendErr _ | MSendProbs _ => 2
  | MDone | MRecover _ => 1
  | MExited | MExitedPanic => 0
  end.

Definition fuel (c : list outcome) (s : state) : nat :=
  sum_list (member_fuel <$> members s)
  + match coord s with CWait => 2 | CSend => 1 | CExited => 0 end
  + match main s with ALoop i _ => S (length c - i) | AReturned _ _ => 0 end.

(** The goroutine of the member gets to [wg.Done()]: its call of [Check]
    returns or ends the goroutine with [runtime.Goexit]; it does not when the
    call panics or blocks for ever. *)
Definition runs_done (o : outcome) : bool :=
  match o with
  | Returns _ _ | Goexits => true
  | Panics _ | Hangs => false
  end.

(** The member is at a channel send. *)
Definition at_send (pc : member_pc) : bool :=
  match pc with
  | MSendErr _ | MSendProbs _ | MRecover _ => true
  | _ => false
  end.

(** The same outcome with the sentinel replaced by the nil error. *)
Definition sentinel_as_nil (o : outcome) : outcome :=
  match o with
  | Returns probs (Some e) => if is_errNotApplicable e then Returns probs None else o
  | _ => o
  end.

End Group.

Arguments outcome : clear implicits.
Arguments member_pc : clear implicits.
Arguments main_pc : clear implicits.
Arguments state : clear implicits.
Arguments exited {Problem} o !pc /.
Arguments past_send {Problem} !pc /.
Arguments res_sent {Problem} o !pc /.
Arguments err_sent {Problem} o !pc /.

(* --------------------------------------------------------------------- *)
(** *** Two schedules for any group *)

(** Member [k] calls [Check] and sends; the caller takes a results event. *)
Definition round (k : nat) : list label := [Member k; Member k; SelectResults].

(** The members run one after the other, the caller taking the result of
    each before the next one starts; then the loop ends. *)
Definition sched_in_order (n : nat) : list label :=
  concat (round <$> seq 0 n) ++ [LoopExit].

(** Member [k] runs to its end. *)
Definition whole_member (k : nat) : list label := [Member k; Member k; Member k].

(** Every member runs to its end, the waiting goroutine sends its marker,
    and only then the caller makes its first choice, which is [errChan]. *)
Definition sched_marker (n : nat) : list label :=
  concat (whole_member <$> seq 0 n) ++ [Coordinator; Coordinator; SelectErr].

(* --------------------------------------------------------------------- *)
(** *** Concrete groups and schedules, with problems given by their text *)

Definition boom : error := ErrorString 7 "lookup failed"%string.

Definition findings : list string := ["no TXT record"%string].

(** One member with a finding, one member that is not applicable. *)
Definition g_clean : list (outcome string) :=
  [Returns findings None; Returns [] (Some errNotApplicable)].

Definition g_single : list (outcome string) := [Returns findings None].

(** One member with a finding, one member that malfunctions. *)
Definition g_error : list (outcome string) :=
  [Returns findings None; Returns [] (Some boom)].

(** One member that panics, one member that malfunctions. *)
Definition g_panic : list (outcome string) :=
  [Panics "index out of range"%string; Returns [] (Some boom)].

(** Both members finish and the waiting goroutine sends its marker before
    the caller's first [select], which then picks [errChan]. *)
Definition sched_marker_first : list label :=
  [Member 0; Member 0; Member 0; Member 1; Member 1; Member 1;
   Coordinator; Coordinator; SelectErr].

(** The caller takes every result before anything else happens. *)
Definition sched_results_first : list label :=
  [Member 0; Member 0; SelectResults; Member 1; Member 1; SelectResults; LoopExit].

Definition s_clean : state string :=
  Eval vm_compute in
    default (init g_clean) (run g_clean sched_results_first (init g_clean)).

(** Member 0 delivers, the caller stores it, member 1 fails, the caller
    takes the error. *)
Definition sched_error : list label :=
  [Member 0; Member 0; SelectResults; Member 1; Member 1; SelectErr].

Definition s_error : state string :=
  Eval vm_compute in default (init g_error) (run g_error sched_error (init g_error)).

(** Member 0 panics and the caller takes its error. *)
Definition sched_panic : list label := [Member 0; Member 0; SelectErr].

Definition s_panic : state string :=
  Eval vm_compute in default (init g_panic) (run g_panic sched_panic (init g_panic)).

(** The empty group: the waiting goroutine wakes up, the caller returns. *)
Definition sched_empty : list label := [Coordinator; LoopExit].

Definition s_empty : state string :=
  Eval vm_compute in default (init []) (run [] sched_empty (init [])).

(** One member with a finding, one member whose call blocks for ever. *)
Definition g_hang : list (outcome string) := [Returns findings None; Hangs].

Definition sched_hang : list label := [Member 0; Member 0; SelectResults].

Definition s_hang : state string :=
  Eval vm_compute in default (init g_hang) (run g_hang sched_hang (init g_hang)).

(** Member 1 of [g_error] is at [errChan <- err]. *)
Definition sched_at_send : list label := [Member 1].

Definition s_at_send : state string :=
  Eval vm_compute in default (init g_error) (run g_error sched_at_send (init g_error)).

(** Member 1 of [g_error] has sent its error; the caller is in its loop. *)
Definition sched_error_sent : list label := [Member 1; Member 1].

Definition s_error_sent : state string :=
  Eval vm_compute in
    default (init g_error) (run g_error sched_error_sent (init g_error)).

Definition s_error_taken : state string :=
  Eval vm_compute in default (init g_error) (run g_error [SelectErr] s_error_sent).

(** After the return in [s_error], both members execute [wg.Done()]. *)
Definition sched_late : list label := [Member 0; Member 1].

Definition s_late : state string :=
  Eval vm_compute in default (init g_error) (run g_error sched_late s_error).

(** [g_single] until nothing can move. *)
Definition sched_single_end : list label :=
  [Member 0; Member 0; SelectResults; LoopExit; Member 0; Coordinator; Coordinator].

Definition s_single_end : state string :=
  Eval vm_compute in
    default (init g_single) (run g_single sched_single_end (init g_single)).

(** An outer group with a member that behaves as the call of [g_error] that
    ends in [s_error], and a member without any problem. *)
Definition g_outer : list (outcome string) :=
  [Returns findings (Some boom); Returns [] None].

Definition sched_outer : list label := [Member 0; Member 0; SelectErr].

Definition s_outer : state string :=
  Eval vm_compute in default (init g_outer) (run g_outer sched_outer (init g_outer)).

(** A single member with a finding that returns the sentinel. *)
Definition g_sentinel : list (outcome string) :=
  [Returns findings (Some errNotApplicable)].

(** One member with a finding, one member that ends its goroutine with
    [runtime.Goexit]. *)
Definition g_goexit : list (outcome string) := [Returns findings None; Goexits].

(** Member 0 delivers and the caller takes it; member 1 exits through the
    deferred [wg.Done()]; member 0 finishes; the waiting goroutine sends its
    marker and the caller takes it. *)
Definition sched_goexit : list label :=
  [Member 0; Member 0; SelectResults; Member 1; Member 1; Member 0;
   Coordinator; Coordinator; SelectErr].

Definition s_goexit : state string :=
  Eval vm_compute in default (init g_goexit) (run g_goexit sched_goexit (init g_goexit)).

(* ===================================================================== *)
(** ** Properties of the group *)
(* ===================================================================== *)

Section GroupProofs.

Context {Problem : Type}.
Implicit Types (c : list (outcome Problem)) (s : state Problem) (l : label)
  (ms : list (member_pc Problem)) (o : outcome Problem) (pc : member_pc Problem).

Lemma chan_send_Some {A} (ch ch' : chan A) x :
  chan_send ch x = Some ch' ↔
  length (buf ch) < cap ch ∧ ch' = Chan (cap ch) (buf ch ++ [x]) (S (sent ch)) (rcvd ch).
Proof.
  unfold chan_send. case_decide as Hlt.
  - split; [intros [= <-]; by split|by intros [_ ->]].
  - split; [done|]. by intros [? _].
Qed.

Lemma chan_recv_Some {A} (ch ch' : chan A) x :
  chan_recv ch = Some (x, ch') ↔
  ∃ b, buf ch = x :: b ∧ ch' = Chan (cap ch) b (sent ch) (S (rcvd ch)).
Proof.
  unfold chan_recv. destruct (buf ch) as [|y b].
  - split; [done|]. by intros (b' & ? & _).
  - split.
    + intros [= -> <-]. by exists b.
    + intros (b' & [= -> ->] & ->). done.
Qed.

Lemma step_trans c l s s' : step c l s = Some s' ↔ trans c s l s'.
Proof.
  split.
  - destruct s as [w ec rc ms co mn]. destruct l as [k| | | |]; simpl.
    + unfold member_step, set_member; simpl. intros Hs.
      destruct (ms !! k) as [[|e|probs| |r| |]|] eqn:Hk; try done.
      * destruct (c !! k) as [o|] eqn:Hc; [simpl in Hs|done].
        destruct (after_check o) as [pc|] eqn:Ha; [simpl in Hs|done].
        simplify_eq. by eapply T_check.
      * destruct (chan_send ec (Some e)) as [ch|] eqn:Hch; [simpl in Hs|done].
        apply chan_send_Some in Hch as [? ->]. simplify_eq. by apply T_send_err.
      * destruct (chan_send rc probs) as [ch|] eqn:Hch; [simpl in Hs|done].
        apply chan_send_Some in Hch as [? ->]. simplify_eq. by apply T_send_probs.
      * destruct w; simplify_eq. by apply T_done.
      * destruct (chan_send ec (Some (panic_error r))) as [ch|] eqn:Hch; [simpl in Hs|done].
        apply chan_send_Some in Hch as [? ->]. simplify_eq. by apply T_recover.
    + unfold coord_step; simpl. intros Hs. destruct co; try done.
      * case_decide; simplify_eq. apply T_wake.
      * destruct (chan_send ec None) as [ch|] eqn:Hch; [simpl in Hs|done].
        apply chan_send_Some in Hch as [? ->]. simplify_eq. by apply T_nil.
    + unfold main_step; simpl. intros Hs. destruct mn as [i probs|]; [|done].
      case_decide; [|done].
      destruct (chan_recv rc) as [[x ch]|] eqn:Hr; [simpl in Hs|done].
      apply chan_recv_Some in Hr as (b & ? & ->). simplify_eq. by apply T_recv_results.
    + unfold main_step; simpl. intros Hs. destruct mn as [i probs|]; [|done].
      case_decide; [|done].
      destruct (chan_recv ec) as [[x ch]|] eqn:Hr; [simpl in Hs|done].
      apply chan_recv_Some in Hr as (b & ? & ->). simplify_eq. by apply T_recv_err.
    + unfold main_step; simpl. intros Hs. destruct mn as [i probs|]; [|done].
      case_decide; [done|]. simplify_eq. by apply T_exit.
  - intros Ht. destruct Ht as
      [w ec rc ms co mn k o pc Hk Hc Ha | w ec rc ms co mn k e Hk Hlt
      | w ec rc ms co mn k probs Hk Hlt | w ec rc ms co mn k Hk
      | w ec rc ms co mn k r Hk Hlt | ec rc ms mn | w ec rc ms mn Hlt
      | w ec rc ms co i probs cp b Hi Hb | w ec rc ms co i probs err b Hi Hb
      | w ec rc ms co i probs Hi]; simpl;
      unfold member_step, coord_step, main_step, chan_send, chan_recv, set_member; simpl.
    + by rewrite Hk, Hc; simpl; rewrite Ha.
    + rewrite Hk. by rewrite decide_True.
    + rewrite Hk. by rewrite decide_True.
    + by rewrite Hk.
    + rewrite Hk. by rewrite decide_True.
    + done.
    + by rewrite decide_True.
    + rewrite decide_True by done. by rewrite Hb.
    + rewrite decide_True by done. by rewrite Hb.
    + by rewrite decide_False.
Qed.

(** Destructs a step into its nine kinds. *)
Ltac step_cases Ht :=
  destruct Ht as
      [w ec rc ms co mn k o pc Hk Hc Ha | w ec rc ms co mn k e Hk Hlt
      | w ec rc ms co mn k probs Hk Hlt | w ec rc ms co mn k Hk
      | w ec rc ms co mn k r Hk Hlt | ec rc ms mn | w ec rc ms mn Hlt
      | w ec rc ms co i probs cp b Hi Hb | w ec rc ms co i probs err b Hi Hb
      | w ec rc ms co i probs Hi].

(** Counting members. *)
Lemma count2_insert (P : outcome Problem → member_pc Problem → bool) c ms k o pc pc' :
  c !! k = Some o → ms !! k = Some pc →
  count2 P c (<[k:=pc']> ms) + (if P o pc then 1 else 0)
  = count2 P c ms + (if P o pc' then 1 else 0).
Proof.
  unfold count2. revert ms k. induction c as [|o0 c IH]; intros [|pc0 ms] [|k] Hc Hm;
    simplify_eq/=; try lia.
  specialize (IH ms k Hc Hm). lia.
Qed.

Lemma count2_le (P : outcome Problem → member_pc Problem → bool) c ms :
  count2 P c ms ≤ length c.
Proof.
  unfold count2. revert ms. induction c as [|o c IH]; intros [|pc ms]; simpl; try lia.
  specialize (IH ms). destruct (P o pc); lia.
Qed.

Lemma count2_lt (P : outcome Problem → member_pc Problem → bool) c ms k o pc :
  c !! k = Some o → ms !! k = Some pc → P o pc = false → count2 P c ms < length c.
Proof.
  unfold count2. revert ms k. induction c as [|o0 c IH]; intros [|pc0 ms] [|k] Hc Hm HP;
    simplify_eq/=.
  - rewrite HP. pose proof (count2_le P c ms). unfold count2 in *. lia.
  - specialize (IH ms k Hc Hm HP). destruct (P o0 pc0); lia.
Qed.

Lemma count2_pos (P : outcome Problem → member_pc Problem → bool) c ms k o pc :
  c !! k = Some o → ms !! k = Some pc → P o pc = true → 0 < count2 P c ms.
Proof.
  unfold count2. revert ms k. induction c as [|o0 c IH]; intros [|pc0 ms] [|k] Hc Hm HP;
    simplify_eq/=.
  - rewrite HP. lia.
  - specialize (IH ms k Hc Hm HP). lia.
Qed.

Lemma count2_init (P : outcome Problem → member_pc Problem → bool) c n :
  (∀ o, P o MCheck = false) → count2 P c (replicate n MCheck) = 0.
Proof.
  intros HP. unfold count2. revert n. induction c as [|o c IH]; intros [|n]; simpl; try done.
  by rewrite HP, IH.
Qed.

Lemma fuel_insert (f : member_pc Problem → nat) ms k pc pc' :
  ms !! k = Some pc →
  sum_list (f <$> <[k:=pc']> ms) + f pc = sum_list (f <$> ms) + f pc'.
Proof.
  revert k. induction ms as [|pc0 ms IH]; intros [|k] Hm; simplify_eq/=; try lia.
  specialize (IH k Hm). lia.
Qed.

Lemma store_app (probs cp : list Problem) : store probs cp = probs ++ cp.
Proof.
  unfold store. case_decide; [done|]. destruct cp; simpl in *; [by rewrite app_nil_r|lia].
Qed.


Lemma after_check_ok o pc : after_check o = Some pc → pc_ok o pc.
Proof.
  destruct o as [p [e|]|r| |]; simpl; intros H; simplify_eq; simpl; try done.
  destruct (is_errNotApplicable e) eqn:He; simplify_eq/=; by rewrite ?He.
Qed.

Lemma after_check_not_sent o pc :
  after_check o = Some pc → exited o pc = false ∧ res_sent o pc = false ∧ err_sent o pc = false.
Proof.
  destruct o as [p [e|]|r| |]; simpl; intros H; simplify_eq; simpl; try done.
  destruct (is_errNotApplicable e) eqn:He; simplify_eq/=; done.
Qed.

Lemma inv_count_init c : inv_count c (init c).
Proof.
  constructor; simpl; try done.
  - induction c as [|o c IH]; simpl; by constructor.
  - rewrite count2_init by done. lia.
  - by rewrite count2_init.
  - by rewrite count2_init.
  - lia.
Qed.

Lemma pc_lookup c ms k pc :
  Forall2 pc_ok c ms → ms !! k = Some pc → ∃ o, c !! k = Some o ∧ pc_ok o pc.
Proof.
  intros H Hk. destruct (Forall2_lookup_r _ _ _ _ _ H Hk) as (o & ? & ?). eauto.
Qed.

Lemma pcs_insert c ms k o pc :
  Forall2 pc_ok c ms → c !! k = Some o → pc_ok o pc → Forall2 pc_ok c (<[k:=pc]> ms).
Proof.
  intros H Hc Hok. rewrite <- (list_insert_id c k o) by done. by apply Forall2_insert.
Qed.

Ltac member_counts c ms k o pcold pcnew Hc Hk :=
  pose proof (count2_insert exited c ms k o pcold pcnew Hc Hk);
  pose proof (count2_insert res_sent c ms k o pcold pcnew Hc Hk);
  pose proof (count2_insert err_sent c ms k o pcold pcnew Hc Hk).

Lemma inv_count_step c s l s' : inv_count c s → trans c s l s' → inv_count c s'.
Proof.
  intros [Hpcs Hce Hcr Hwg Hsr Hse Hbr Hbe Hco Hmn] Ht. step_cases Ht; simpl in *.
  - destruct (after_check_not_sent _ _ Ha) as (E1 & E2 & E3).
    member_counts c ms k o (@MCheck Problem) pc Hc Hk.
    rewrite E1, E2, E3 in *. simpl in *.
    constructor; simpl; try done; try lia.
    eapply pcs_insert; eauto using after_check_ok.
  - destruct (pc_lookup _ _ _ _ Hpcs Hk) as (o & Hc & Hok).
    member_counts c ms k o (MSendErr (Problem:=Problem) e) (@MDone Problem) Hc Hk.
    destruct o as [p err|r| |]; simpl in *; try done. destruct Hok as [-> Hre].
    simpl in *. rewrite Hre in *; simpl in *.
    constructor; simpl; try done; try (rewrite ?length_app; simpl; lia).
    eapply pcs_insert; eauto; done.
  - destruct (pc_lookup _ _ _ _ Hpcs Hk) as (o & Hc & Hok).
    member_counts c ms k o (MSendProbs probs) (@MDone Problem) Hc Hk.
    destruct o as [p err|r| |]; simpl in *; try done. destruct Hok as [-> Hre].
    simpl in *. rewrite Hre in *; simpl in *.
    constructor; simpl; try done; try (rewrite ?length_app; simpl; lia).
    eapply pcs_insert; eauto; done.
  - destruct (pc_lookup _ _ _ _ Hpcs Hk) as (o & Hc & Hok).
    member_counts c ms k o (@MDone Problem) (@MExited Problem) Hc Hk.
    assert (co = CWait) as -> by (destruct co; try done; by (discriminate Hco)).
    destruct o as [p err|r| |]; simpl in *; try done;
      (constructor; simpl; try done; try lia; eapply pcs_insert; eauto; done).
  - destruct (pc_lookup _ _ _ _ Hpcs Hk) as (o & Hc & Hok).
    member_counts c ms k o (MRecover (Problem:=Problem) r) (@MExitedPanic Problem) Hc Hk.
    destruct o as [p err|r'| |]; simpl in *; try done. subst r'.
    simpl in *.
    constructor; simpl; try done; try (rewrite ?length_app; simpl; lia).
    eapply pcs_insert; eauto; done.
  - constructor; simpl; try done; try lia.
  - constructor; simpl; try done; try (rewrite ?length_app; simpl; lia).
    intros _. by apply Hco.
  - rewrite Hb in Hbr; simpl in Hbr. destruct Hmn as (? & ? & ?).
    constructor; simpl; try done; try lia.
  - rewrite Hb in Hbe; simpl in Hbe. destruct Hmn as (? & ? & ?).
    constructor; simpl; try done; try lia.
  - destruct Hmn as (? & ? & ?).
    constructor; simpl; try done; try lia.
    right. repeat split; try done; lia.
Qed.

Lemma failure_not_normal o : is_Some (failure o) → normal o = false.
Proof.
  destruct o as [p [e|]|r| |]; simpl; try done; try (by intros [? ?]).
  destruct (is_errNotApplicable e); simpl; [by intros [? ?]|done].
Qed.

Lemma normal_no_failure o : normal o = true → failure o = None.
Proof.
  destruct o as [p [e|]|r| |]; simpl; try done.
  by destruct (is_errNotApplicable e).
Qed.

Lemma exited_no_failure o :
  pc_ok o (@MExited Problem) → real_return o = false → failure o = None ∧ o ≠ Hangs.
Proof.
  destruct o as [p [e|]|r| |]; simpl; try done. by intros _ ->.
Qed.

Lemma normal_not_Hangs o : normal o = true → failure o = None ∧ o ≠ Hangs.
Proof. intros Hn. split; [by apply normal_no_failure|]. by intros ->. Qed.

Lemma inv_err_init c : inv_err c (init c).
Proof.
  constructor; simpl; try done.
  - intros e He. by apply elem_of_nil in He.
  - intros k o pc e _ Hk. apply lookup_replicate in Hk as [-> _]. done.
Qed.

(** Every member has exited once the wait-group counter is 0. *)
Lemma all_exited c s k o :
  inv_count c s → wg s = 0 → c !! k = Some o → members s !! k = Some MExited.
Proof.
  intros Hic Hw Hc. pose proof (ic_wg _ _ Hic) as Hwg. pose proof (ic_pcs _ _ Hic) as Hpcs.
  destruct (Forall2_lookup_l _ _ _ _ _ Hpcs Hc) as (pc & Hk & Hok).
  destruct (exited o pc) eqn:Hex; [by destruct pc|].
  pose proof (count2_lt exited c (members s) k o pc Hc Hk Hex). lia.
Qed.

Lemma not_exited_wait c s k pc :
  inv_count c s → members s !! k = Some pc → pc ≠ MExited → coord s = CWait.
Proof.
  intros Hic Hk Hne. destruct (coord s) eqn:Eco; [done| |].
  all: assert (wg s = 0) as Hco by (apply (ic_coord _ _ Hic); congruence).
  all: destruct (pc_lookup _ _ _ _ (ic_pcs _ _ Hic) Hk) as (o & Hc & _).
  all: pose proof (all_exited c s k o Hic Hco Hc); congruence.
Qed.

Lemma inv_err_step c s l s' : inv_count c s → inv_err c s → trans c s l s' → inv_err c s'.
Proof.
  intros Hic [Hnil Hfrom Hdel Hsome Hrnil] Ht.
  pose proof (ic_pcs _ _ Hic) as Hpcs.
  step_cases Ht; simpl in *.
  - (* the call of the member is over *)
    constructor; simpl; try done.
    intros k' o' pc' e' Hc' Hk' Hs Hf.
    apply list_lookup_insert_Some in Hk' as [(-> & <- & _)|[Hne Hk']]; [|by eauto].
    simplify_eq. destruct (after_check_not_sent _ _ Ha) as (_ & _ & E). congruence.
  - (* errChan <- err *)
    destruct (pc_lookup _ _ _ _ Hpcs Hk) as (o & Hc & Hok).
    destruct o as [p err|r| |]; simpl in Hok; try done. destruct Hok as [-> Hre].
    pose proof (not_exited_wait c _ k _ Hic Hk ltac:(done)) as Hco. simpl in Hco. subst co.
    constructor; simpl; try done.
    + intros i Hi. apply lookup_app_Some in Hi as [Hi|[_ Hi]].
      * by destruct (Hnil i Hi).
      * destruct (i - length (buf ec)); simplify_eq/=.
    + intros e' He'. apply elem_of_app in He' as [He'|He']; [by eauto|].
      apply list_elem_of_singleton in He'. simplify_eq.
      eexists k, _. split; [done|]. simpl in *. by rewrite Hre.
    + intros k' o' pc' e' Hc' Hk' Hs Hf.
      apply list_lookup_insert_Some in Hk' as [(-> & <- & _)|[Hne Hk']].
      * left. apply elem_of_app. right. simplify_eq. simpl in *. rewrite Hre in Hf.
        simplify_eq. by apply list_elem_of_singleton.
      * destruct (Hdel _ _ _ _ Hc' Hk' Hs Hf) as [?|?]; [left|by right].
        apply elem_of_app. by left.
  - (* resultsChan <- probs *)
    destruct (pc_lookup _ _ _ _ Hpcs Hk) as (o & Hc & Hok).
    destruct o as [p err|r| |]; simpl in Hok; try done. destruct Hok as [-> Hre].
    constructor; simpl; try done.
    intros k' o' pc' e' Hc' Hk' Hs Hf.
    apply list_lookup_insert_Some in Hk' as [(-> & <- & _)|[Hne Hk']]; [|by eauto].
    simplify_eq. simpl in Hs. rewrite Hre in Hs. done.
  - (* wg.Done() *)
    constructor; simpl; try done.
    intros k' o' pc' e' Hc' Hk' Hs Hf.
    apply list_lookup_insert_Some in Hk' as [(-> & <- & _)|[Hne Hk']]; [|by eauto].
    by apply (Hdel k' o' MDone e').
  - (* errChan <- fmt.Errorf(...) *)
    destruct (pc_lookup _ _ _ _ Hpcs Hk) as (o & Hc & Hok).
    destruct o as [p err|r'| |]; simpl in Hok; try done. subst r'.
    pose proof (not_exited_wait c _ k _ Hic Hk ltac:(done)) as Hco. simpl in Hco. subst co.
    constructor; simpl; try done.
    + intros i Hi. apply lookup_app_Some in Hi as [Hi|[_ Hi]].
      * by destruct (Hnil i Hi).
      * destruct (i - length (buf ec)); simplify_eq/=.
    + intros e' He'. apply elem_of_app in He' as [He'|He']; [by eauto|].
      apply list_elem_of_singleton in He'. simplify_eq.
      eexists k, _. split; [done|]. done.
    + intros k' o' pc' e' Hc' Hk' Hs Hf.
      apply list_lookup_insert_Some in Hk' as [(-> & <- & _)|[Hne Hk']].
      * left. apply elem_of_app. right. simplify_eq. simpl in *.
        simplify_eq. by apply list_elem_of_singleton.
      * destruct (Hdel _ _ _ _ Hc' Hk' Hs Hf) as [?|?]; [left|by right].
        apply elem_of_app. by left.
  - (* wg.Wait() returns *)
    constructor; simpl; try done.
    intros i Hi. by destruct (Hnil i Hi).
  - (* errChan <- nil *)
    constructor; simpl; try done.
    + intros i Hi. apply lookup_app_Some in Hi as [Hi|[Hge Hi]].
      * by destruct (Hnil i Hi).
      * split; [done|]. rewrite length_app. simpl.
        destruct (i - length (buf ec)) eqn:E; simplify_eq/=. lia.
    + intros e' He'. apply elem_of_app in He' as [He'|He']; [by eauto|].
      apply list_elem_of_singleton in He'. done.
    + intros k' o' pc' e' Hc' Hk' Hs Hf.
      destruct (Hdel _ _ _ _ Hc' Hk' Hs Hf) as [?|?]; [left|by right].
      apply elem_of_app. by left.
  - (* a results event *)
    constructor; simpl; try done.
    intros k' o' pc' e' Hc' Hk' Hs Hf.
    destruct (Hdel _ _ _ _ Hc' Hk' Hs Hf) as [?|[? ?]]; [by left|done].
  - (* an errChan event *)
    rewrite Hb in *.
    constructor; simpl.
    + intros j Hj. destruct (Hnil (S j) Hj) as [? Hlen]. simpl in Hlen. split; [done|lia].
    + intros e' He'. apply Hfrom. by apply elem_of_cons; right.
    + intros k' o' pc' e' Hc' Hk' Hs Hf.
      destruct (Hdel _ _ _ _ Hc' Hk' Hs Hf) as [Hin|[? ?]]; [|done].
      apply elem_of_cons in Hin as [<-|Hin]; [right; by eexists|by left].
    + intros probs' e' Heq. simplify_eq. apply Hfrom. by apply elem_of_cons; left.
    + intros probs' Heq k' o' Hc'. simplify_eq.
      destruct (Hnil 0 eq_refl) as [Hco Hlen]. simpl in *.
      assert (b = []) as -> by (destruct b; simpl in *; [done|lia]).
      assert (w = 0) as -> by (apply (ic_coord _ _ Hic); simpl; congruence).
      pose proof (all_exited c _ k' o' Hic eq_refl Hc') as Hk'. simpl in Hk'.
      pose proof (ic_sent_err _ _ Hic) as Hse. pose proof (ic_buf_err _ _ Hic) as Hbe.
      pose proof (ic_main _ _ Hic) as Hmn. simpl in *. rewrite Hb, Hco in *. simpl in *.
      destruct (real_return o') eqn:Hn.
      * assert (err_sent o' (@MExited Problem) = true) as Hes by (simpl; by rewrite Hn).
        pose proof (count2_pos err_sent c ms k' o' _ Hc' Hk' Hes). lia.
      * destruct (pc_lookup _ _ _ _ Hpcs Hk') as (o'' & Hc'' & Hok). simplify_eq.
        by apply exited_no_failure.
  - (* the loop is over *)
    constructor; simpl; try done.
    + intros k' o' pc' e' Hc' Hk' Hs Hf.
      destruct (Hdel _ _ _ _ Hc' Hk' Hs Hf) as [?|[? ?]]; [by left|done].
    + intros probs' Heq k' o' Hc'. simplify_eq.
      pose proof (ic_sent_res _ _ Hic) as Hsr. pose proof (ic_buf_res _ _ Hic) as Hbr.
      pose proof (ic_main _ _ Hic) as Hmn. simpl in *.
      destruct (Forall2_lookup_l _ _ _ _ _ Hpcs Hc') as (pc' & Hk' & Hok).
      destruct (res_sent o' pc') eqn:Hrs.
      * apply normal_not_Hangs. destruct pc'; simpl in Hrs; done.
      * pose proof (count2_lt res_sent c ms k' o' pc' Hc' Hk' Hrs). lia.
Qed.

Lemma output_Returns c k p err : c !! k = Some (Returns p err) → output c k = p.
Proof. intros Hc. unfold output. by rewrite Hc. Qed.

Lemma inv_res_init c : inv_res c (init c).
Proof.
  exists [], []. simpl. split_and!; try done.
  - constructor.
  - intros k. split.
    + intros Hk. by apply elem_of_nil in Hk.
    + intros (o & pc & _ & Hk & Hs). apply lookup_replicate in Hk as [-> _]. done.
Qed.

(** A step of member [k] that does not change whether [k] has sent its
    results keeps the set of the members that have. *)
Lemma res_sent_update c ms k pcold pcnew (ks : list nat) :
  ms !! k = Some pcold →
  (∀ o, c !! k = Some o → res_sent o pcnew = res_sent o pcold) →
  (∀ j, j ∈ ks ↔ ∃ o pc, c !! j = Some o ∧ ms !! j = Some pc ∧ res_sent o pc = true) →
  ∀ j, j ∈ ks ↔
    ∃ o pc, c !! j = Some o ∧ <[k:=pcnew]> ms !! j = Some pc ∧ res_sent o pc = true.
Proof.
  intros Hk Hsame Hall j. rewrite (Hall j). destruct (decide (k = j)) as [->|Hne].
  - rewrite list_lookup_insert_eq by (by eapply lookup_lt_Some). split.
    + intros (o & pc & Hc & Hm & Hs). simplify_eq. exists o, pcnew.
      by rewrite (Hsame o Hc).
    + intros (o & pc & Hc & Hm & Hs). simplify_eq. exists o, pcold.
      by rewrite <- (Hsame o Hc).
  - by rewrite list_lookup_insert_ne.
Qed.

Lemma inv_res_step c s l s' : inv_count c s → inv_res c s → trans c s l s' → inv_res c s'.
Proof.
  intros Hic (ks1 & ks2 & Hnd & Hall & Hbuf & Hacc & Hlen) Ht.
  pose proof (ic_pcs _ _ Hic) as Hpcs.
  step_cases Ht; simpl in *.
  - exists ks1, ks2. simpl. split_and!; try done.
    eapply res_sent_update; [done| |done]. intros o' Hc'. simplify_eq.
    by destruct (after_check_not_sent _ _ Ha) as (_ & -> & _).
  - destruct (pc_lookup _ _ _ _ Hpcs Hk) as (o & Hc & Hok).
    destruct o as [p err|r| |]; simpl in Hok; try done. destruct Hok as [-> Hre].
    exists ks1, ks2. simpl. split_and!; try done.
    eapply res_sent_update; [done| |done]. intros o' Hc'. simplify_eq.
    simpl in *. by rewrite Hre.
  - destruct (pc_lookup _ _ _ _ Hpcs Hk) as (o & Hc & Hok).
    destruct o as [p err|r| |]; simpl in Hok; try done. destruct Hok as [-> Hre].
    assert (k ∉ ks1 ++ ks2) as Hnin.
    { intros Hin. apply Hall in Hin as (o' & pc' & ? & ? & Hs). by simplify_eq. }
    exists ks1, (ks2 ++ [k]). simpl. split_and!; try done.
    + rewrite app_assoc. apply NoDup_app. split_and!; [done| |apply NoDup_singleton].
      intros x Hx Hx'. apply list_elem_of_singleton in Hx'. by subst.
    + intros j. rewrite app_assoc, elem_of_app, list_elem_of_singleton, (Hall j).
      destruct (decide (k = j)) as [<-|Hne].
      * rewrite list_lookup_insert_eq by (by eapply lookup_lt_Some). split.
        -- intros _. exists (Returns p err), MDone. split_and!; try done.
           simpl. by rewrite Hre.
        -- by right.
      * rewrite list_lookup_insert_ne by done. split; [|by left].
        intros [?|?]; [done|by subst].
    + rewrite fmap_app, Hbuf. simpl. by rewrite (output_Returns _ _ _ _ Hc).
  - exists ks1, ks2. simpl. split_and!; try done.
    eapply res_sent_update; [done| |done]. done.
  - exists ks1, ks2. simpl. split_and!; try done.
    eapply res_sent_update; [done| |done]. done.
  - by exists ks1, ks2.
  - by exists ks1, ks2.
  - rewrite Hb in Hbuf. destruct ks2 as [|k0 ks2]; simplify_eq/=.
    exists (ks1 ++ [k0]), ks2. simpl. split_and!; try done.
    + by rewrite <- app_assoc.
    + intros j. by rewrite <- app_assoc.
    + rewrite store_app, fmap_app, concat_app. simpl. by rewrite app_nil_r.
    + rewrite length_app. simpl. lia.
  - by exists ks1, ks2.
  - by exists ks1, ks2.
Qed.

Lemma inv_init c : inv c (init c).
Proof. split; [|split]; auto using inv_count_init, inv_err_init, inv_res_init. Qed.

Lemma inv_step c s l s' : inv c s → step c l s = Some s' → inv c s'.
Proof.
  intros (Hic & Hie & Hir) Hs. apply step_trans in Hs.
  split; [|split]; eauto using inv_count_step, inv_err_step, inv_res_step.
Qed.

Lemma inv_run c sched s s' : inv c s → run c sched s = Some s' → inv c s'.
Proof.
  revert s. induction sched as [|l sched IH]; intros s Hinv Hr; simpl in Hr.
  - by simplify_eq.
  - destruct (step c l s) as [s1|] eqn:Hs; [simpl in Hr|done].
    eapply IH; [|done]. by eapply inv_step.
Qed.

Lemma reachable_inv c s : reachable c s → inv c s.
Proof. intros [sched Hr]. eapply inv_run; [apply inv_init|done]. Qed.

Lemma run_app c sched1 sched2 s :
  run c (sched1 ++ sched2) s = s' ← run c sched1 s; run c sched2 s'.
Proof.
  revert s. induction sched1 as [|l sched1 IH]; intros s; simpl; [done|].
  destruct (step c l s); simpl; [apply IH|done].
Qed.

(** Every step uses up fuel. *)
Lemma fuel_step c s l s' : step c l s = Some s' → fuel c s' < fuel c s.
Proof.
  intros Ht. apply step_trans in Ht. unfold fuel.
  step_cases Ht; simpl; try lia.
  - pose proof (fuel_insert member_fuel ms k _ pc Hk) as Hf.
    assert (member_fuel pc ≤ 2); [|simpl in Hf; lia].
    destruct o as [p [e|]|r| |]; simpl in Ha; simplify_eq/=; try lia.
    destruct (is_errNotApplicable e); simplify_eq/=; lia.
  - pose proof (fuel_insert member_fuel ms k _ (@MDone Problem) Hk) as Hf. simpl in Hf. lia.
  - pose proof (fuel_insert member_fuel ms k _ (@MDone Problem) Hk) as Hf. simpl in Hf. lia.
  - pose proof (fuel_insert member_fuel ms k _ (@MExited Problem) Hk) as Hf. simpl in Hf. lia.
  - pose proof (fuel_insert member_fuel ms k _ (@MExitedPanic Problem) Hk) as Hf. simpl in Hf. lia.
Qed.

Lemma fuel_run c sched s s' : run c sched s = Some s' → length sched + fuel c s' ≤ fuel c s.
Proof.
  revert s. induction sched as [|l sched IH]; intros s Hr; simpl in Hr.
  - simplify_eq. simpl. lia.
  - destruct (step c l s) as [s1|] eqn:Hs; [simpl in Hr|done].
    apply IH in Hr. apply fuel_step in Hs. simpl. lia.
Qed.

Lemma fuel_replicate n :
  sum_list (member_fuel <$> replicate n (@MCheck Problem)) = 3 * n.
Proof. induction n as [|n IH]; [done|]. cbn in *. lia. Qed.

Lemma fuel_init c : fuel c (init c) = 4 * length c + 3.
Proof.
  unfold fuel, init. cbn [members coord main]. rewrite fuel_replicate. lia.
Qed.

Lemma count2_all (P : outcome Problem → member_pc Problem → bool) c ms :
  length c = length ms →
  (∀ k o pc, c !! k = Some o → ms !! k = Some pc → P o pc = true) →
  count2 P c ms = length c.
Proof.
  unfold count2. revert ms. induction c as [|o c IH]; intros [|pc ms] Hlen Hall;
    simplify_eq/=; [done|].
  rewrite (Hall 0 o pc eq_refl eq_refl). rewrite IH; [done..|].
  intros k o' pc' Hc Hm. by apply (Hall (S k)).
Qed.

(** What a state in which no goroutine can move looks like. *)
Lemma terminal_facts c s :
  terminal c s →
  (∀ k o, members s !! k = Some MCheck → c !! k = Some o → after_check o = None) ∧
  (∀ k e, members s !! k = Some (MSendErr e) →
      cap (errChan s) ≤ length (buf (errChan s))) ∧
  (∀ k p, members s !! k = Some (MSendProbs p) →
      cap (resultsChan s) ≤ length (buf (resultsChan s))) ∧
  (∀ k, members s !! k = Some MDone → wg s = 0) ∧
  (∀ k r, members s !! k = Some (MRecover r) →
      cap (errChan s) ≤ length (buf (errChan s))) ∧
  (coord s = CWait → wg s ≠ 0) ∧
  (coord s = CSend → cap (errChan s) ≤ length (buf (errChan s))) ∧
  (∀ i probs, main s = ALoop i probs →
      i < length c ∧ buf (resultsChan s) = [] ∧ buf (errChan s) = []).
Proof.
  intros Hterm. destruct s as [w ec rc ms co mn]. simpl.
  assert (∀ l s', ¬ trans c (State w ec rc ms co mn) l s') as Hno.
  { intros l s' Ht. apply step_trans in Ht. by rewrite Hterm in Ht. }
  repeat split.
  - intros k o Hk Hc. destruct (after_check o) as [pc|] eqn:Ha; [|done].
    destruct (Hno _ _ (T_check c w ec rc ms co mn k o pc Hk Hc Ha)).
  - intros k e Hk. destruct (decide (length (buf ec) < cap ec)) as [Hlt|]; [|lia].
    destruct (Hno _ _ (T_send_err c w ec rc ms co mn k e Hk Hlt)).
  - intros k p Hk. destruct (decide (length (buf rc) < cap rc)) as [Hlt|]; [|lia].
    destruct (Hno _ _ (T_send_probs c w ec rc ms co mn k p Hk Hlt)).
  - intros k Hk. destruct w as [|w]; [done|].
    destruct (Hno _ _ (T_done c w ec rc ms co mn k Hk)).
  - intros k r Hk. destruct (decide (length (buf ec) < cap ec)) as [Hlt|]; [|lia].
    destruct (Hno _ _ (T_recover c w ec rc ms co mn k r Hk Hlt)).
  - intros -> ->. destruct (Hno _ _ (T_wake c ec rc ms mn)).
  - intros ->. destruct (decide (length (buf ec) < cap ec)) as [Hlt|]; [|lia].
    destruct (Hno _ _ (T_nil c w ec rc ms mn Hlt)).
  - destruct (decide (i < length c)) as [|Hge]; [done|]. subst mn.
    destruct (Hno _ _ (T_exit c w ec rc ms co i probs Hge)).
  - subst mn. destruct (decide (i < length c)) as [Hlt|Hge].
    + destruct (buf rc) as [|x b] eqn:Hb; [done|].
      destruct (Hno _ _ (T_recv_results c w ec rc ms co i probs x b Hlt Hb)).
    + destruct (Hno _ _ (T_exit c w ec rc ms co i probs Hge)).
  - subst mn. destruct (decide (i < length c)) as [Hlt|Hge].
    + destruct (buf ec) as [|x b] eqn:Hb; [done|].
      destruct (Hno _ _ (T_recv_err c w ec rc ms co i probs x b Hlt Hb)).
    + destruct (Hno _ _ (T_exit c w ec rc ms co i probs Hge)).
Qed.

(** [resultsChan <- probs] never blocks. *)
Lemma send_probs_free c s k p :
  inv_count c s → members s !! k = Some (MSendProbs p) →
  length (buf (resultsChan s)) < cap (resultsChan s).
Proof.
  intros Hic Hk. destruct (pc_lookup _ _ _ _ (ic_pcs _ _ Hic) Hk) as (o & Hc & _).
  pose proof (count2_lt res_sent c (members s) k o _ Hc Hk eq_refl).
  pose proof (ic_sent_res _ _ Hic). pose proof (ic_buf_res _ _ Hic).
  pose proof (ic_cap_res _ _ Hic). lia.
Qed.

(** [wg.Done()] never finds the counter at 0. *)
Lemma done_free c s k :
  inv_count c s → members s !! k = Some MDone → wg s ≠ 0.
Proof.
  intros Hic Hk. destruct (pc_lookup _ _ _ _ (ic_pcs _ _ Hic) Hk) as (o & Hc & _).
  pose proof (count2_lt exited c (members s) k o _ Hc Hk eq_refl).
  pose proof (ic_wg _ _ Hic). lia.
Qed.

(** A send of a member on [errChan] does not block once the caller has taken
    an event from [errChan], nor while [errChan] is empty. *)
Lemma send_err_free c s k pc :
  inv_count c s → members s !! k = Some pc →
  (∃ e, pc = MSendErr e) ∨ (∃ r, pc = MRecover r) →
  rcvd (errChan s) = 1 ∨ buf (errChan s) = [] →
  length (buf (errChan s)) < cap (errChan s).
Proof.
  intros Hic Hk Hpc Hrcv.
  destruct (pc_lookup _ _ _ _ (ic_pcs _ _ Hic) Hk) as (o & Hc & _).
  pose proof (ic_cap_err _ _ Hic) as Hcap.
  assert (coord s = CWait) as Hco.
  { eapply not_exited_wait; [done..|]. by destruct Hpc as [[? ->]|[? ->]]. }
  assert (err_sent o pc = false) as Hes by (by destruct Hpc as [[? ->]|[? ->]]).
  pose proof (count2_lt err_sent c (members s) k o _ Hc Hk Hes).
  pose proof (ic_sent_err _ _ Hic) as Hse. pose proof (ic_buf_err _ _ Hic).
  rewrite Hco in Hse. simpl in Hse.
  destruct Hrcv as [?|Hb]; [lia|]. rewrite Hb. simpl.
  apply lookup_lt_Some in Hc. lia.
Qed.

(** [errChan <- nil] does not block once the caller has taken an event from
    [errChan]. *)
Lemma send_nil_free c s :
  inv_count c s → coord s = CSend → rcvd (errChan s) = 1 →
  length (buf (errChan s)) < cap (errChan s).
Proof.
  intros Hic Hco Hrcv. pose proof (ic_cap_err _ _ Hic).
  pose proof (ic_sent_err _ _ Hic) as Hse. pose proof (ic_buf_err _ _ Hic).
  pose proof (count2_le err_sent c (members s)).
  rewrite Hco in Hse. simpl in Hse. lia.
Qed.

(** When nothing can move, every member whose call is over has exited. *)
Lemma terminal_member_exited c s k o :
  inv c s → terminal c s → c !! k = Some o → o ≠ Hangs →
  members s !! k = Some MExited ∨ members s !! k = Some MExitedPanic.
Proof.
  intros (Hic & Hie & Hir) Hterm Hc Hno.
  destruct (terminal_facts c s Hterm) as (Tc & Te & Tp & Td & Tr & _ & _ & Tm).
  destruct (Forall2_lookup_l _ _ _ _ _ (ic_pcs _ _ Hic) Hc) as (pc & Hk & Hok).
  assert (∀ pc', members s !! k = Some pc' →
    (∃ e, pc' = MSendErr e) ∨ (∃ r, pc' = MRecover r) →
    length (buf (errChan s)) < cap (errChan s)) as Hfree.
  { intros pc' Hk' Hpc'. eapply send_err_free; [done..|].
    pose proof (ic_main _ _ Hic) as Hmn. destruct (main s) as [i probs|probs err] eqn:Em.
    - right. by destruct (Tm i probs eq_refl) as (_ & _ & ?).
    - destruct Hmn as [?|(_ & Hn & _)]; [by left|]. exfalso.
      assert (res_sent o pc' = false) as Hrs by (by destruct Hpc' as [[? ->]|[? ->]]).
      pose proof (count2_lt res_sent c (members s) k o _ Hc Hk' Hrs).
      pose proof (ic_sent_res _ _ Hic). pose proof (ic_buf_res _ _ Hic). lia. }
  destruct pc as [|e|p| |r| |]; auto.
  - specialize (Tc k o Hk Hc). destruct o as [? [?|]| | |]; simpl in Tc; try done.
    by destruct (negb _).
  - specialize (Te k e Hk). specialize (Hfree _ Hk ltac:(eauto)). lia.
  - specialize (Tp k p Hk). pose proof (send_probs_free c s k p Hic Hk). lia.
  - specialize (Td k Hk). by pose proof (done_free c s k Hic Hk).
  - specialize (Tr k r Hk). specialize (Hfree _ Hk ltac:(eauto)). lia.
Qed.

(** The call returns: when nothing can move any more, the caller is out of
    its loop, provided some member fails or no member blocks for ever (a
    member that blocks without any failure keeps the caller waiting). *)
Lemma terminal_returned c s :
  inv c s → terminal c s →
  (∃ k o, c !! k = Some o ∧ is_Some (failure o)) ∨
  (∀ k o, c !! k = Some o → o ≠ Hangs) →
  ∃ probs err, main s = AReturned probs err.
Proof.
  intros Hinv Hterm Hcase. pose proof Hinv as (Hic & Hie & Hir).
  destruct (main s) as [i probs|probs err] eqn:Em; [exfalso|by eauto].
  destruct (terminal_facts c s Hterm) as (_ & _ & _ & _ & _ & Tw & Ts & Tm).
  destruct (Tm i probs Em) as (Hi & Hbr & Hbe).
  pose proof (ic_main _ _ Hic) as Hmn. rewrite Em in Hmn. destruct Hmn as (Hrr & Hre & _).
  pose proof (ic_buf_err _ _ Hic) as Hle. pose proof (ic_buf_res _ _ Hic) as Hlr.
  pose proof (ic_sent_err _ _ Hic) as Hse. pose proof (ic_cap_err _ _ Hic) as Hcap.
  rewrite Hbe in Hle. rewrite Hbr in Hlr. simpl in *.
  destruct Hcase as [(k & o & Hc & Hf)|Hall].
  - assert (o ≠ Hangs) as Hno by (intros ->; by destruct Hf).
    assert (∃ pc, members s !! k = Some pc ∧ err_sent o pc = true) as (pc & Hk & Hes).
    { destruct (terminal_member_exited c s k o Hinv Hterm Hc Hno) as [Hk|Hk];
        (eexists; split; [exact Hk|]); [|done].
      destruct (pc_lookup _ _ _ _ (ic_pcs _ _ Hic) Hk) as (o' & Hc' & Hok).
      simplify_eq. destruct o as [p [e|]|r| |]; simpl in *; try done; try by destruct Hf.
      by destruct (is_errNotApplicable e); [destruct Hf|]. }
    pose proof (count2_pos err_sent c (members s) k o pc Hc Hk Hes). lia.
  - assert (count2 exited c (members s) = length c) as Hcnt.
    { apply count2_all; [by eapply Forall2_length, ic_pcs|].
      intros k o pc Hc Hk.
      destruct (terminal_member_exited c s k o Hinv Hterm Hc (Hall k o Hc)) as [Hk'|Hk'];
        simplify_eq; [done|].
      pose proof (count2_pos err_sent c (members s) k o _ Hc Hk eq_refl). lia. }
    pose proof (ic_wg _ _ Hic) as Hwg.
    destruct (coord s) eqn:Hco; simpl in Hse.
    + apply Tw; [done|lia].
    + specialize (Ts eq_refl). rewrite Hbe in Ts. simpl in Ts. lia.
    + lia.
Qed.

Lemma run_bounded c sched s :
  run c sched (init c) = Some s → length sched ≤ 4 * length c + 3.
Proof. intros Hr. apply fuel_run in Hr. rewrite fuel_init in Hr. lia. Qed.

Lemma run_reachable c sched s : run c sched (init c) = Some s → reachable c s.
Proof. intros Hr. by exists sched. Qed.

(** The accumulator only grows. *)
Lemma accumulator_step c l s s' :
  step c l s = Some s' → ∃ rest, accumulator (main s') = accumulator (main s) ++ rest.
Proof.
  intros Ht. apply step_trans in Ht. step_cases Ht; simpl;
    try (exists []; by rewrite app_nil_r).
  exists cp. apply store_app.
Qed.

Lemma accumulator_run c sched s s' :
  run c sched s = Some s' → ∃ rest, accumulator (main s') = accumulator (main s) ++ rest.
Proof.
  revert s. induction sched as [|l sched IH]; intros s Hr; simpl in Hr.
  - simplify_eq. exists []. by rewrite app_nil_r.
  - destruct (step c l s) as [s1|] eqn:Hs; [simpl in Hr|done].
    destruct (accumulator_step _ _ _ _ Hs) as [r1 E1].
    destruct (IH _ Hr) as [r2 E2]. exists (r1 ++ r2). by rewrite E2, E1, app_assoc.
Qed.

(** What the caller returns: the outputs of distinct members that completed
    normally, in the order of arrival. *)
Lemma returned_problems c s probs err :
  inv c s → main s = AReturned probs err →
  ∃ ks : list nat, NoDup ks ∧ length ks = rcvd (resultsChan s) ∧
    (∀ j, j ∈ ks → ∃ o, c !! j = Some o ∧ normal o = true) ∧
    probs = concat (output c <$> ks).
Proof.
  intros (_ & _ & ks1 & ks2 & Hnd & Hall & _ & Hacc & Hlen) Hm.
  rewrite Hm in Hacc. simpl in Hacc. exists ks1. split_and!; [|done| |done].
  - by apply NoDup_app in Hnd as (? & _ & _).
  - intros j Hj. destruct (proj1 (Hall j)) as (o & pc & Hc & _ & Hs).
    { apply elem_of_app. by left. }
    exists o. split; [done|]. destruct pc; simpl in Hs; done.
Qed.

Lemma failure_real_error p e :
  is_real_error (Some e) = true → failure (Returns (Problem:=Problem) p (Some e)) = Some e.
Proof. simpl. by intros ->. Qed.

Lemma step_sentinel_as_nil c l s : step (sentinel_as_nil <$> c) l s = step c l s.
Proof.
  destruct l as [k| | | |]; simpl; unfold member_step, main_step;
    rewrite ?length_fmap; try done.
  destruct (members s !! k) as [[| | | | | |]|]; try done.
  rewrite list_lookup_fmap. destruct (c !! k) as [[p [e|]|r| |]|]; simpl; try done.
  destruct (is_errNotApplicable e) eqn:E; simpl; by rewrite ?E.
Qed.

Lemma run_sentinel_as_nil c sched s : run (sentinel_as_nil <$> c) sched s = run c sched s.
Proof.
  revert s. induction sched as [|l sched IH]; intros s; simpl; [done|].
  rewrite step_sentinel_as_nil. destruct (step c l s); simpl; [apply IH|done].
Qed.

(** C3. In a group where some member [k] returns a real error (not nil, not
    the sentinel), whatever the schedule: the run is at most [4 * len(c) + 3]
    steps long; when no goroutine can move any more the call has returned
    with an error that is not nil; whenever the call has returned, its error
    is not nil and its problems are the outputs, in order of arrival, of
    distinct members that completed normally (so nothing of [k], nor of any
    other failing member), one output for each results event that the
    caller took before the one event it took from [errChan]; while the
    caller is in its loop, taking the event at the head of [errChan] returns
    that event with the accumulator as it is; and the accumulator is never
    cut: whatever it holds at some point is a prefix of what it holds later,
    up to the return. *)
Theorem real_error_returned_with_partial_results c k p e sched s :
  c !! k = Some (Returns p (Some e)) → is_real_error (Some e) = true →
  run c sched (init c) = Some s →
  length sched ≤ 4 * length c + 3 ∧
  (terminal c s → ∃ probs e', main s = AReturned probs (Some e')) ∧
  (∀ probs err, main s = AReturned probs err →
     err ≠ None ∧ rcvd (errChan s) = 1 ∧
     ∃ ks : list nat, NoDup ks ∧ (k ∉ ks) ∧
       length ks = rcvd (resultsChan s) ∧
       (∀ j, j ∈ ks → ∃ o, c !! j = Some o ∧ normal o = true) ∧
       probs = concat (output c <$> ks)) ∧
  (∀ n acc x tl, main s = ALoop n acc → buf (errChan s) = x :: tl →
     ∃ s', step c SelectErr s = Some s' ∧ main s' = AReturned acc x) ∧
  (∀ sched' s', run c sched' s = Some s' →
     ∃ rest, accumulator (main s') = accumulator (main s) ++ rest).
Proof.
  intros Hc Hre Hr. pose proof (reachable_inv c s (run_reachable _ _ _ Hr)) as Hinv.
  pose proof Hinv as (Hic & Hie & Hir).
  assert (∀ probs, main s ≠ AReturned probs None) as Hnn.
  { intros probs Hm. pose proof (proj1 (ie_ret_nil _ _ Hie probs Hm k _ Hc)) as Hn.
    simpl in Hn, Hre. by rewrite Hre in Hn. }
  split_and!; [by eapply run_bounded|..].
  - intros Hterm. destruct (terminal_returned c s Hinv Hterm) as (probs & [e'|] & Hm).
    + left. exists k, (Returns p (Some e)). split; [done|]. by rewrite failure_real_error.
    + eauto.
    + by destruct (Hnn probs).
  - intros probs err Hm. split; [intros ->; by destruct (Hnn probs)|]. split.
    + pose proof (ic_main _ _ Hic) as Hmn. rewrite Hm in Hmn.
      destruct Hmn as [?|(_ & _ & ->)]; [done|by destruct (Hnn probs)].
    + destruct (returned_problems c s probs err Hinv Hm) as (ks & Hnd & Hlen & Hall & Hp).
      exists ks. split_and!; try done.
      intros Hin. destruct (Hall k Hin) as (o & Hc' & Hn). simplify_eq.
      simpl in Hn, Hre. by rewrite Hre in Hn.
  - intros n acc x tl Hm Htl.
    assert (n < length c) as Hn.
    { destruct (Forall2_lookup_l _ _ _ _ _ (ic_pcs _ _ Hic) Hc) as (pc & Hk & _).
      assert (res_sent (Returns p (Some e)) pc = false) as Hrs.
      { simpl in Hre. destruct pc; simpl; try done; by rewrite Hre. }
      pose proof (count2_lt res_sent c (members s) k _ pc Hc Hk Hrs).
      pose proof (ic_sent_res _ _ Hic). pose proof (ic_buf_res _ _ Hic).
      pose proof (ic_main _ _ Hic) as Hmn. rewrite Hm in Hmn. lia. }
    destruct s as [w0 ec0 rc0 ms0 co0 mn0]. simpl in Hm, Htl. subst mn0.
    eexists. split; [apply step_trans; by apply T_recv_err|done].
  - intros sched' s'. apply accumulator_run.
Qed.

(** C4, as amended.  For a member [k] whose call panics with [r], whatever
    the schedule: the run is bounded; the goroutine of [k] is only ever at
    its call, in its deferred function with [recover() == r], or finished;
    once finished its error [fmt.Errorf("panic: %v", r)] is on [errChan] or
    is the error the call returned; when nothing can move any more the
    goroutine has finished and the call has returned with an error that is
    not nil; the returned error is always the error of some failing member,
    and it is the one made from [r] when no other member fails; a step of
    [k] leaves [resultsChan], the accumulator, the wait group and every
    other member as they are. *)
Theorem panic_recovered_and_reported c k r sched s :
  c !! k = Some (Panics r) → run c sched (init c) = Some s →
  length sched ≤ 4 * length c + 3 ∧
  (members s !! k = Some MCheck ∨ members s !! k = Some (MRecover r) ∨
   members s !! k = Some MExitedPanic) ∧
  (members s !! k = Some MExitedPanic →
     Some (panic_error r) ∈ buf (errChan s) ∨
     ∃ probs, main s = AReturned probs (Some (panic_error r))) ∧
  (terminal c s →
     members s !! k = Some MExitedPanic ∧ ∃ probs e', main s = AReturned probs (Some e')) ∧
  (∀ probs err, main s = AReturned probs err →
     ∃ e' j o, err = Some e' ∧ c !! j = Some o ∧ failure o = Some e') ∧
  ((∀ j o, c !! j = Some o → j ≠ k → failure o = None) →
     ∀ probs err, main s = AReturned probs err → err = Some (panic_error r)) ∧
  (∀ s', step c (Member k) s = Some s' →
     resultsChan s' = resultsChan s ∧ main s' = main s ∧ wg s' = wg s ∧
     ∀ j, j ≠ k → members s' !! j = members s !! j).
Proof.
  intros Hc Hr. pose proof (reachable_inv c s (run_reachable _ _ _ Hr)) as Hinv.
  pose proof Hinv as (Hic & Hie & Hir).
  destruct (Forall2_lookup_l _ _ _ _ _ (ic_pcs _ _ Hic) Hc) as (pc & Hk & Hok).
  assert (∀ probs err, main s = AReturned probs err →
     ∃ e' j o, err = Some e' ∧ c !! j = Some o ∧ failure o = Some e') as Hret.
  { intros probs [e'|] Hm.
    - destruct (ie_ret_some _ _ Hie probs e' Hm) as (j & o & ? & ?). by exists e', j, o.
    - by pose proof (proj1 (ie_ret_nil _ _ Hie probs Hm k _ Hc)). }
  split_and!.
  - by eapply run_bounded.
  - destruct pc; simpl in Hok; try done; subst; auto.
  - intros Hk'. by apply (ie_delivered _ _ Hie k (Panics r) MExitedPanic).
  - intros Hterm. split.
    + destruct (terminal_member_exited c s k _ Hinv Hterm Hc ltac:(done)) as [Hk'|Hk'];
        [|done].
      rewrite Hk' in Hk. simplify_eq. done.
    + destruct (terminal_returned c s Hinv Hterm) as (probs & err & Hm).
      { left. by exists k, (Panics r). }
      destruct (Hret _ _ Hm) as (e' & _ & _ & -> & _). eauto.
  - done.
  - intros Honly probs err Hm. destruct (Hret _ _ Hm) as (e' & j & o & -> & Hcj & Hf).
    destruct (decide (j = k)) as [->|Hne].
    + by simplify_eq.
    + rewrite (Honly j o Hcj Hne) in Hf. done.
  - intros s' Hs. apply step_trans in Hs.
    assert (∀ pc', pc_ok (Panics r) pc' → pc' ≠ MDone ∧ ∀ q, pc' ≠ MSendProbs q) as Hpan.
    { intros pc'. destruct pc'; simpl; try done. }
    destruct (Hpan pc Hok) as [Hnd Hnp]. clear Hpan Hret Hinv Hic Hie Hir Hr.
    remember (Member k) as l eqn:El.
    destruct Hs as
      [w ec rc ms co mn k' o pc' Hk' Hc' Ha | w ec rc ms co mn k' e Hk' Hlt
      | w ec rc ms co mn k' probs Hk' Hlt | w ec rc ms co mn k' Hk'
      | w ec rc ms co mn k' r' Hk' Hlt | ec rc ms mn | w ec rc ms mn Hlt
      | w ec rc ms co i probs cp b Hi Hb | w ec rc ms co i probs err b Hi Hb
      | w ec rc ms co i probs Hi]; simplify_eq/=;
      try (split_and!; [done..|]; intros j Hj; by rewrite list_lookup_insert_ne).
Qed.



(** C5. Whatever the schedule, at most [len(c)] sends complete on
    [resultsChan] and at most [len(c) + 1] on [errChan], both of capacity
    [len(c)]; and once the call has returned on an event of [errChan], every
    member that is at a send and the waiting goroutine at its send can do
    it, so that no state in which nothing moves has one of them at a
    send. *)
Theorem channel_traffic_and_capacity c sched s :
  run c sched (init c) = Some s →
  sent (resultsChan s) ≤ length c ∧ sent (errChan s) ≤ length c + 1 ∧
  cap (resultsChan s) = length c ∧ cap (errChan s) = length c ∧
  (∀ probs err, main s = AReturned probs err → rcvd (errChan s) = 1 →
     (∀ k pc, members s !! k = Some pc → at_send pc = true →
        is_Some (step c (Member k) s)) ∧
     (coord s = CSend → is_Some (step c Coordinator s)) ∧
     (terminal c s →
        (∀ k pc, members s !! k = Some pc → at_send pc = false) ∧ coord s ≠ CSend)).
Proof.
  intros Hr. pose proof (reachable_inv c s (run_reachable _ _ _ Hr)) as Hinv.
  pose proof Hinv as (Hic & Hie & Hir).
  assert (∀ k pc, rcvd (errChan s) = 1 → members s !! k = Some pc → at_send pc = true →
            is_Some (step c (Member k) s)) as Hmem.
  { intros k pc Hrcv Hk Hat.
    destruct pc as [|e|p| |r| |]; simpl in Hat; try done.
    - pose proof (send_err_free c s k _ Hic Hk ltac:(eauto) ltac:(auto)) as Hlt.
      destruct s as [w ec rc ms co mn]. simpl in Hk, Hlt.
      eexists. apply step_trans. by apply T_send_err.
    - pose proof (send_probs_free c s k _ Hic Hk) as Hlt.
      destruct s as [w ec rc ms co mn]. simpl in Hk, Hlt.
      eexists. apply step_trans. by apply T_send_probs.
    - pose proof (send_err_free c s k _ Hic Hk ltac:(eauto) ltac:(auto)) as Hlt.
      destruct s as [w ec rc ms co mn]. simpl in Hk, Hlt.
      eexists. apply step_trans. by apply T_recover. }
  assert (rcvd (errChan s) = 1 → coord s = CSend → is_Some (step c Coordinator s)) as Hco.
  { intros Hrcv Hco. pose proof (send_nil_free c s Hic Hco Hrcv) as Hlt.
    destruct s as [w ec rc ms co mn]. simpl in Hco, Hlt. subst co.
    eexists. apply step_trans. by apply T_nil. }
  split_and!.
  - rewrite (ic_sent_res _ _ Hic). apply count2_le.
  - rewrite (ic_sent_err _ _ Hic). pose proof (count2_le err_sent c (members s)).
    destruct (coord s); simpl; lia.
  - apply (ic_cap_res _ _ Hic).
  - apply (ic_cap_err _ _ Hic).
  - intros probs err Hm Hrcv. split_and!; [by eauto|by auto|].
    intros Hterm. split.
    + intros k pc Hk. destruct (at_send pc) eqn:Hat; [|done].
      destruct (Hmem k pc Hrcv Hk Hat) as [s' Hs']. by rewrite Hterm in Hs'.
    + intros Hc. destruct (Hco Hrcv Hc) as [s' Hs']. by rewrite Hterm in Hs'.
Qed.

Lemma failure_is_Some o :
  is_Some (failure o) ↔
  (∃ r, o = Panics r) ∨
  (∃ probs e, o = Returns probs (Some e) ∧ is_errNotApplicable e = false).
Proof.
  split.
  - destruct o as [p [e|]|r| |]; simpl; intros [x Hx]; try done.
    + destruct (is_errNotApplicable e) eqn:He; [done|]. right. by exists p, e.
    + left. by exists r.
  - intros [[r ->]|(p & e & -> & He)]; simpl; [by eexists|].
    rewrite He. simpl. by eexists.
Qed.

(** X14. The sentinel is recognised by its pointer, whatever the text, and a
    value made by [fmt.Errorf] is never the sentinel; a member that returns
    the sentinel goes on to [resultsChan <- probs] exactly as one that
    returns nil, so that the group with every sentinel replaced by nil runs
    the same schedule to the same state; once such a member is past its
    send, its problems are among those waiting in [resultsChan] or those
    stored in the accumulator; the failing outcomes are the
    panics and the errors that are not the sentinel; and the call returns an
    error that is not nil exactly when some member fails. *)
Theorem sentinel_is_not_an_error c sched s :
  run c sched (init c) = Some s →
  (∀ ptr text, is_errNotApplicable (ErrorString ptr text) = true ↔ ptr = errNotApplicable_ptr) ∧
  (∀ text, is_errNotApplicable (Errorf text) = false) ∧
  (∀ probs : list Problem,
     after_check (Returns probs (Some errNotApplicable)) = Some (MSendProbs probs) ∧
     after_check (Returns probs None) = Some (MSendProbs probs)) ∧
  run (sentinel_as_nil <$> c) sched (init (sentinel_as_nil <$> c)) = Some s ∧
  (∀ k probs pc, c !! k = Some (Returns probs (Some errNotApplicable)) →
     members s !! k = Some pc → past_send pc = true →
     ∃ ks1 ks2 : list nat,
       k ∈ ks1 ++ ks2 ∧ output c k = probs ∧
       buf (resultsChan s) = output c <$> ks2 ∧
       accumulator (main s) = concat (output c <$> ks1)) ∧
  (∀ o, is_Some (failure o) ↔
     (∃ r, o = Panics r) ∨
     (∃ probs e, o = Returns probs (Some e) ∧ is_errNotApplicable e = false)) ∧
  (∀ probs err, main s = AReturned probs err →
     (err ≠ None ↔ ∃ k o, c !! k = Some o ∧ is_Some (failure o))).
Proof.
  intros Hr. pose proof (reachable_inv c s (run_reachable _ _ _ Hr)) as Hinv.
  pose proof Hinv as (Hic & Hie & Hir).
  split_and!.
  - intros ptr text. simpl. apply N.eqb_eq.
  - done.
  - done.
  - rewrite run_sentinel_as_nil. unfold init. by rewrite length_fmap.
  - intros k probs pc Hc Hk Hps.
    destruct Hir as (ks1 & ks2 & _ & Hall & Hbuf & Hacc & _).
    exists ks1, ks2. split_and!; [|by eapply output_Returns|done..].
    apply Hall. exists (Returns probs (Some errNotApplicable)), pc.
    split_and!; [done..|]. destruct pc; simpl in *; done.
  - apply failure_is_Some.
  - intros probs err Hm. split.
    + destruct err as [e|]; [|done]. intros _.
      destruct (ie_ret_some _ _ Hie probs e Hm) as (k & o & Hc & Hf).
      exists k, o. by rewrite Hf.
    + intros (k & o & Hc & Hf) ->.
      pose proof (proj1 (ie_ret_nil _ _ Hie probs Hm k o Hc)) as Hn.
      rewrite Hn in Hf. by destruct Hf.
Qed.

(** C9. The error that the call returns is nil, or the error of a member
    that is not the sentinel, or the error made from the panic of a member;
    it is never the sentinel. *)
Theorem group_error_never_sentinel c sched s probs err :
  run c sched (init c) = Some s → main s = AReturned probs err →
  (err = None ∨
   (∃ k p e, err = Some e ∧ c !! k = Some (Returns p (Some e)) ∧
             is_errNotApplicable e = false) ∨
   (∃ k r, err = Some (panic_error r) ∧ c !! k = Some (Panics r))) ∧
  (∀ e, err = Some e → is_errNotApplicable e = false).
Proof.
  intros Hr Hm. pose proof (reachable_inv c s (run_reachable _ _ _ Hr)) as Hinv.
  pose proof Hinv as (Hic & Hie & Hir).
  destruct err as [e|]; [|split; [by left|done]].
  destruct (ie_ret_some _ _ Hie probs e Hm) as (k & o & Hc & Hf).
  destruct o as [p [e'|]|r| |]; simpl in Hf; try done.
  - destruct (is_errNotApplicable e') eqn:He; simplify_eq/=.
    split; [|by intros ? [= <-]]. right; left. by exists k, p, e.
  - simplify_eq. split; [|by intros ? [= <-]]. right; right. by exists k, r.
Qed.

Lemma empty_group_inv sched (s0 s : state Problem) :
  (main s0 = ALoop 0 [] ∨ main s0 = AReturned [] None) ∧
  rcvd (errChan s0) = 0 ∧ rcvd (resultsChan s0) = 0 →
  run [] sched s0 = Some s →
  (main s = ALoop 0 [] ∨ main s = AReturned [] None) ∧
  rcvd (errChan s) = 0 ∧ rcvd (resultsChan s) = 0.
Proof.
  revert s0. induction sched as [|l sched IH]; intros s0 H0 Hr; simpl in Hr;
    [by simplify_eq|].
  destruct (step [] l s0) as [s1|] eqn:Hs; [simpl in Hr|done].
  apply (IH s1); [|done]. clear IH Hr. destruct H0 as (Hm & He & Hres).
  apply step_trans in Hs. step_cases Hs; simpl in *; try done; try lia.
  destruct Hm as [Hm|Hm]; simplify_eq. auto.
Qed.

(** C10. In the empty group, whatever the schedule: the caller is at the
    start of its loop with no problem or has returned no problem and a nil
    error; nothing was ever received from either channel and neither case
    of the [select] can be taken; from the start of the loop the caller's
    step is the return of no problem and a nil error; and when nothing can
    move the call has returned just that. *)
Theorem empty_group_returns_at_once sched s :
  run [] sched (init []) = Some s →
  (main s = ALoop 0 [] ∨ main s = AReturned [] None) ∧
  rcvd (errChan s) = 0 ∧ rcvd (resultsChan s) = 0 ∧
  step [] SelectResults s = None ∧ step [] SelectErr s = None ∧
  (main s = ALoop 0 [] → ∃ s', step [] LoopExit s = Some s' ∧ main s' = AReturned [] None) ∧
  (terminal [] s → main s = AReturned [] None).
Proof.
  intros Hr.
  destruct (empty_group_inv sched (init []) s) as (Hm & He & Hres); [simpl; auto|done|].
  assert (step [] SelectResults s = None ∧ step [] SelectErr s = None) as [H1 H2].
  { unfold step, main_step. destruct Hm as [-> | ->]; simpl; done. }
  split_and!; try done.
  - intros Hm'. unfold step, main_step. rewrite Hm'. simpl. eauto.
  - intros Hterm. destruct Hm as [Hm|Hm]; [|done].
    specialize (Hterm LoopExit). unfold step, main_step in Hterm. rewrite Hm in Hterm.
    done.
Qed.


Lemma count2_pos_inv (P : outcome Problem → member_pc Problem → bool) c ms :
  0 < count2 P c ms → ∃ k o pc, c !! k = Some o ∧ ms !! k = Some pc ∧ P o pc = true.
Proof.
  unfold count2. revert ms. induction c as [|o c IH]; intros [|pc ms] Hpos;
    simpl in Hpos; try lia.
  destruct (P o pc) eqn:HP.
  - by exists 0, o, pc.
  - destruct (IH ms) as (k & o' & pc' & ? & ? & ?); [lia|]. by exists (S k), o', pc'.
Qed.

(* --------------------------------------------------------------------- *)
(** *** Further properties of the group *)

Lemma run_inv c sched s : run c sched (init c) = Some s → inv c s.
Proof. intros Hr. by apply reachable_inv, run_reachable with sched. Qed.

Lemma failure_is_real o e : failure o = Some e → is_errNotApplicable e = false.
Proof.
  destruct o as [p [e'|]|r| |]; simpl; try done.
  - destruct (is_errNotApplicable e') eqn:He; simpl; [done|]. by intros [= <-].
  - by intros [= <-].
Qed.

(** A send of a member on [errChan] finds room in the buffer. *)
Lemma send_err_room c s k pc :
  inv_count c s → members s !! k = Some pc →
  (∃ e, pc = MSendErr e) ∨ (∃ r, pc = MRecover r) →
  length (buf (errChan s)) < cap (errChan s).
Proof.
  intros Hic Hk Hpc.
  destruct (pc_lookup _ _ _ _ (ic_pcs _ _ Hic) Hk) as (o & Hc & _).
  assert (coord s = CWait) as Hco.
  { eapply not_exited_wait; [done..|]. by destruct Hpc as [[? ->]|[? ->]]. }
  assert (err_sent o pc = false) as Hes by (by destruct Hpc as [[? ->]|[? ->]]).
  pose proof (count2_lt err_sent c (members s) k o _ Hc Hk Hes).
  pose proof (ic_sent_err _ _ Hic) as Hse. pose proof (ic_buf_err _ _ Hic).
  pose proof (ic_cap_err _ _ Hic). rewrite Hco in Hse. simpl in Hse. lia.
Qed.

(** X1. A member goroutine is never blocked: whatever the schedule, a member
    whose call of [Check] comes to an end (it returns, panics or ends its
    goroutine with [runtime.Goexit]) and that has not finished can take its
    next step, be it a send on either channel or [wg.Done()], which then
    finds the counter above 0. *)
Theorem member_never_blocked c sched s k o pc :
  run c sched (init c) = Some s →
  c !! k = Some o → o ≠ Hangs →
  members s !! k = Some pc → pc ≠ MExited → pc ≠ MExitedPanic →
  is_Some (step c (Member k) s) ∧ (pc = MDone → 0 < wg s).
Proof.
  intros Hr Hc Hno Hk Hne Hnp. pose proof (run_inv _ _ _ Hr) as (Hic & _ & _).
  split.
  - destruct pc as [|e|p| |r| |]; try done.
    + destruct (after_check o) as [pc'|] eqn:Ha.
      * destruct s as [w ec rc ms co mn]. simpl in Hk.
        eexists. apply step_trans. by eapply T_check.
      * destruct o as [? [e|]| | |]; simpl in Ha; try done. by destruct (negb _).
    + pose proof (send_err_room c s k _ Hic Hk ltac:(eauto)) as Hlt.
      destruct s as [w ec rc ms co mn]. simpl in Hk, Hlt.
      eexists. apply step_trans. by apply T_send_err.
    + pose proof (send_probs_free c s k _ Hic Hk) as Hlt.
      destruct s as [w ec rc ms co mn]. simpl in Hk, Hlt.
      eexists. apply step_trans. by apply T_send_probs.
    + pose proof (done_free c s k Hic Hk) as Hw.
      destruct s as [[|w] ec rc ms co mn]; simpl in Hk, Hw; [done|].
      eexists. apply step_trans. by apply T_done.
    + pose proof (send_err_room c s k _ Hic Hk ltac:(eauto)) as Hlt.
      destruct s as [w ec rc ms co mn]. simpl in Hk, Hlt.
      eexists. apply step_trans. by apply T_recover.
  - intros ->. pose proof (done_free c s k Hic Hk). lia.
Qed.

(** X2. There is no timeout: a member whose call of [Check] blocks for ever
    (it does not return, does not panic and does not end its goroutine), in
    a group where no member fails, keeps the caller in its loop for ever: no
    schedule reaches a state in which the call has returned. *)
Theorem hung_member_hangs_the_call c sched s k :
  c !! k = Some Hangs →
  (∀ j o, c !! j = Some o → failure o = None) →
  run c sched (init c) = Some s →
  ∃ i probs, main s = ALoop i probs ∧ i < length c.
Proof.
  intros Hc Hnf Hr. pose proof (run_inv _ _ _ Hr) as (Hic & Hie & _).
  destruct (main s) as [i probs|probs [e|]] eqn:Hm.
  - exists i, probs. split; [done|].
    pose proof (ic_main _ _ Hic) as Hmn. rewrite Hm in Hmn. destruct Hmn as (Hi & _ & _).
    destruct (Forall2_lookup_l _ _ _ _ _ (ic_pcs _ _ Hic) Hc) as (pc & Hk & Hok).
    assert (res_sent Hangs pc = false) as Hrs by (by destruct pc).
    pose proof (count2_lt res_sent c (members s) k _ _ Hc Hk Hrs).
    pose proof (ic_sent_res _ _ Hic). pose proof (ic_buf_res _ _ Hic). lia.
  - destruct (ie_ret_some _ _ Hie probs e Hm) as (j & o & Hcj & Hf).
    by rewrite (Hnf j o Hcj) in Hf.
  - by destruct (proj2 (ie_ret_nil _ _ Hie probs Hm k _ Hc)).
Qed.

Lemma returned_stays c l s s' res ret :
  step c l s = Some s' → main s = AReturned res ret → main s' = AReturned res ret.
Proof.
  intros Hs Hm. apply step_trans in Hs. step_cases Hs; simpl in *; done.
Qed.

(** X3. The result is final: once the call has returned, the members that
    are still running and the waiting goroutine may go on, but nothing they
    do changes what was returned. *)
Theorem late_deliveries_change_nothing c sched s sched' s' res ret :
  run c sched (init c) = Some s → main s = AReturned res ret →
  run c sched' s = Some s' →
  main s' = AReturned res ret ∧
  rcvd (errChan s') = rcvd (errChan s) ∧ rcvd (resultsChan s') = rcvd (resultsChan s).
Proof.
  intros _ Hm. clear sched. revert s Hm.
  induction sched' as [|l sched' IH]; intros s Hm Hr; simpl in Hr; [by simplify_eq|].
  destruct (step c l s) as [s1|] eqn:Hs; [simpl in Hr|done].
  destruct (IH s1 (returned_stays _ _ _ _ _ _ Hs Hm) Hr) as (? & -> & ->).
  split; [done|]. apply step_trans in Hs. step_cases Hs; simpl in *; done.
Qed.

Lemma head_kept c l s s' hd tl :
  inv c s → step c l s = Some s' →
  (∃ n res, main s = ALoop n res) → buf (errChan s) = hd :: tl →
  (∃ res, main s' = AReturned res hd) ∨
  ((∃ n res, main s' = ALoop n res) ∧ ∃ tl', buf (errChan s') = hd :: tl').
Proof.
  intros (Hic & Hie & _) Hs (n0 & res0 & Hm) Htl. apply step_trans in Hs.
  step_cases Hs; simpl in *; simplify_eq;
    try (right; split; [by eauto|]; rewrite ?Htl; simpl; by eauto).
  - left. rewrite Hb in Htl. simplify_eq. by eauto.
  - left. destruct hd as [e|]; [exfalso|by eauto].
    destruct (ie_from _ _ Hie e) as (k & o & Hc & Hf); [simpl; rewrite Htl; by left|].
    destruct (Forall2_lookup_l _ _ _ _ _ (ic_pcs _ _ Hic) Hc) as (pc & Hk & _).
    simpl in Hk.
    assert (res_sent o pc = false) as Hrs.
    { destruct pc; simpl; try done; by rewrite (failure_not_normal o ltac:(by rewrite Hf)). }
    pose proof (count2_lt res_sent c ms k o pc Hc Hk Hrs).
    pose proof (ic_sent_res _ _ Hic). pose proof (ic_buf_res _ _ Hic).
    pose proof (ic_main _ _ Hic) as Hmn. simpl in *. lia.
Qed.

(** X4. The first error wins: whatever is at the head of [errChan] while the
    caller is in its loop (the error of the member that failed first, or the
    nil marker) is the error that the call returns, whenever it returns. *)
Theorem head_of_errChan_is_returned c sched s i probs x b sched' s' probs' err' :
  run c sched (init c) = Some s →
  main s = ALoop i probs → buf (errChan s) = x :: b →
  run c sched' s = Some s' → main s' = AReturned probs' err' →
  err' = x.
Proof.
  intros Hr Hm Hb. pose proof (run_inv _ _ _ Hr) as Hinv. clear Hr sched.
  revert s i probs b Hinv Hm Hb.
  induction sched' as [|l sched' IH]; intros s i probs b Hinv Hm Hb Hr Hm'; simpl in Hr.
  - simplify_eq. congruence.
  - destruct (step c l s) as [s1|] eqn:Hs; [simpl in Hr|done].
    pose proof (inv_step _ _ _ _ Hinv Hs) as Hinv1.
    destruct (head_kept c l s s1 x b Hinv Hs ltac:(eauto) Hb)
      as [[p1 Hm1]|[(i1 & p1 & Hm1) [b1 Hb1]]].
    + assert (main s' = AReturned p1 x) as Hfin.
      { clear IH Hm' Hs Hinv1. revert s1 Hm1 Hr.
        induction sched' as [|l' sched' IH']; intros s1 Hm1 Hr; simpl in Hr;
          [by simplify_eq|].
        destruct (step c l' s1) as [s2|] eqn:Hs2; [simpl in Hr|done].
        eapply IH'; [|done]. by eapply returned_stays. }
      congruence.
    + by eapply (IH s1 i1 p1 b1).
Qed.

Lemma empty_group_waiter sched (s0 s : state Problem) :
  coord s0 ≠ CExited ∧ cap (errChan s0) = 0 ∧ members s0 = [] →
  run [] sched s0 = Some s →
  coord s ≠ CExited ∧ cap (errChan s) = 0 ∧ members s = [].
Proof.
  revert s0. induction sched as [|l sched IH]; intros s0 H0 Hr; simpl in Hr;
    [by simplify_eq|].
  destruct (step [] l s0) as [s1|] eqn:Hs; [simpl in Hr|done].
  apply (IH s1); [|done]. clear IH Hr. destruct H0 as (Hco & Hcap & Hms).
  apply step_trans in Hs. step_cases Hs; simpl in *; simplify_eq; try done; lia.
Qed.

Lemma runs_done_dec c :
  (∀ k o, c !! k = Some o → runs_done o = true) ∨
  (∃ k o, c !! k = Some o ∧ runs_done o = false).
Proof.
  induction c as [|o c [IH|(k & o' & Hc & Hd)]].
  - left. by intros k o Hk.
  - destruct (runs_done o) eqn:Hd.
    + left. intros [|k] o' Hk; simplify_eq/=; [done|by eapply IH].
    + right. by exists 0, o.
  - right. by exists (S k), o'.
Qed.

Lemma real_return_failure o : real_return o = true → is_Some (failure o).
Proof.
  destruct o as [p [e|]|r| |]; simpl; try done. intros ->. by eexists.
Qed.

(** While a member panics or blocks, the waiting goroutine is in [wg.Wait()]. *)
Lemma not_done_waits c s k o :
  inv_count c s → c !! k = Some o → runs_done o = false → coord s = CWait.
Proof.
  intros Hic Hc Hd.
  destruct (Forall2_lookup_l _ _ _ _ _ (ic_pcs _ _ Hic) Hc) as (pc & Hk & Hok).
  eapply not_exited_wait; [done..|]. intros ->. by destruct o.
Qed.

(** When every member reaches [wg.Done()] and nothing can move any more, the
    waiting goroutine of a group that is not empty has sent its marker. *)
Lemma all_done_waiter_ends c s :
  inv c s → terminal c s → c ≠ [] →
  (∀ k o, c !! k = Some o → runs_done o = true) → coord s = CExited.
Proof.
  intros Hinv Hterm Hne Hret. pose proof Hinv as (Hic & Hie & _).
  destruct (terminal_facts c s Hterm) as (_ & _ & _ & _ & _ & Tw & Ts & Tm).
  assert (∀ k o, c !! k = Some o → members s !! k = Some MExited) as Hex.
  { intros k o Hc. pose proof (Hret k o Hc) as Hd.
    assert (o ≠ Hangs) as Hno by (by intros ->).
    destruct (terminal_member_exited c s k _ Hinv Hterm Hc Hno) as [Hk|Hk]; [done|].
    destruct (pc_lookup _ _ _ _ (ic_pcs _ _ Hic) Hk) as (o' & Hc' & Hok).
    simplify_eq. by destruct o. }
  assert (count2 exited c (members s) = length c) as Hcnt.
  { apply count2_all; [by eapply Forall2_length, ic_pcs|].
    intros k o pc Hc Hk. rewrite (Hex k o Hc) in Hk. by simplify_eq. }
  pose proof (ic_wg _ _ Hic) as Hwg.
  assert (0 < length c) as Hpos by (destruct c; simpl; [done|lia]).
  destruct (coord s) eqn:Hco; [exfalso; apply Tw; [done|lia]| |done]. exfalso.
  specialize (Ts eq_refl).
  pose proof (ic_cap_err _ _ Hic). pose proof (ic_buf_err _ _ Hic) as Hbe.
  pose proof (ic_sent_err _ _ Hic) as Hse. rewrite Hco in Hse. simpl in Hse.
  pose proof (count2_le err_sent c (members s)).
  pose proof (ic_main _ _ Hic) as Hmn.
  destruct (main s) as [n res|res ret] eqn:Hm.
  - destruct (Tm n res eq_refl) as (_ & _ & Hb). rewrite Hb in Ts. simpl in Ts. lia.
  - destruct Hmn as [?|(Hz & Hn & ->)]; [lia|].
    assert (count2 err_sent c (members s) = 0) as Hz'.
    { destruct (count2 err_sent c (members s)) eqn:E; [done|exfalso].
      destruct (count2_pos_inv err_sent c (members s)) as (k & o & pc & Hc & Hk & Hp);
        [lia|].
      rewrite (Hex k o Hc) in Hk. simplify_eq. simpl in Hp.
      pose proof (proj1 (ie_ret_nil _ _ Hie res Hm k o Hc)) as Hf.
      destruct (real_return_failure o Hp) as [? Hf']. congruence. }
    lia.
Qed.

(** X5. Where the goroutine [wg.Wait(); errChan <- nil] is when nothing can
    move any more.  It has come to its end exactly when the group is not
    empty and the goroutine of every member reaches [wg.Done()], that is,
    its call of [Check] returns or ends the goroutine with
    [runtime.Goexit].  It is left in [wg.Wait()] exactly when some member
    panics or blocks for ever.  It is left at [errChan <- nil], on a channel
    of capacity 0 that nobody reads, exactly in the empty group. *)
Theorem waiter_ends_iff_all_done c sched s :
  run c sched (init c) = Some s → terminal c s →
  (coord s = CExited ↔ c ≠ [] ∧ ∀ k o, c !! k = Some o → runs_done o = true) ∧
  (coord s = CWait ↔ ∃ k o, c !! k = Some o ∧ runs_done o = false) ∧
  (coord s = CSend ↔ c = []).
Proof.
  intros Hr Hterm. pose proof (run_inv _ _ _ Hr) as Hinv.
  pose proof Hinv as (Hic & _ & _).
  destruct (runs_done_dec c) as [Hall|(k & o & Hc & Hd)].
  - assert (¬ ∃ k o, c !! k = Some o ∧ runs_done o = false) as Hnone.
    { intros (k & o & Hc & Hd). by rewrite (Hall k o Hc) in Hd. }
    destruct c as [|o0 c0].
    + assert (coord s = CSend) as Hco.
      { destruct (empty_group_waiter sched (init []) s) as (Hne & _ & _); [done..|].
        destruct (terminal_facts [] s Hterm) as (_ & _ & _ & _ & _ & Tw & _ & _).
        pose proof (ic_wg _ _ Hic) as Hwg. simpl in Hwg.
        destruct (coord s); [exfalso; apply Tw; [done|lia]|done|done]. }
      rewrite Hco. split_and!; split; try done; by intros [? _].
    + assert (coord s = CExited) as Hco by (by apply (all_done_waiter_ends (o0 :: c0))).
      rewrite Hco. split_and!; split; try done.
  - assert (coord s = CWait) as Hco by (by apply (not_done_waits c s k o)).
    rewrite Hco. split_and!; split; try done.
    + intros [_ Hall]. by rewrite (Hall k o Hc) in Hd.
    + by eauto.
    + intros ->. done.
Qed.

(** X6. Whatever the members do and whatever the schedule, a call of the
    group takes at most [4 * len(c) + 3] steps of its goroutines, the call
    of [Check] of a member counting for one. *)
Theorem every_run_is_short c sched s :
  run c sched (init c) = Some s → length sched + fuel c s ≤ 4 * length c + 3.
Proof. intros Hr. apply fuel_run in Hr. by rewrite fuel_init in Hr. Qed.

(** X7. A group as a member of a group.  When the call of an inner group
    [c1] returns [(probs1, err1)] and an outer group [c2] has a member with
    that outcome: an error of the inner group is never taken for the
    sentinel by the outer one, so it is the failure of that member; the
    error that the outer call returns is the failure of one of its members
    and, if of that member, the failure of a member of [c1]; and a failing
    member of [c1] makes the outer call return an error that is not nil. *)
Theorem nested_group_errors c1 sched1 s1 probs1 err1 c2 k sched2 s2 probs2 err2 :
  run c1 sched1 (init c1) = Some s1 → main s1 = AReturned probs1 err1 →
  c2 !! k = Some (Returns probs1 err1) →
  run c2 sched2 (init c2) = Some s2 → main s2 = AReturned probs2 err2 →
  failure (Returns probs1 err1) = err1 ∧
  (∀ e, err2 = Some e →
     ∃ j o, c2 !! j = Some o ∧ failure o = Some e ∧
       (j = k → ∃ j1 o1, c1 !! j1 = Some o1 ∧ failure o1 = Some e)) ∧
  ((∃ j1 o1, c1 !! j1 = Some o1 ∧ is_Some (failure o1)) → err2 ≠ None).
Proof.
  intros Hr1 Hm1 Hc2 Hr2 Hm2.
  pose proof (run_inv _ _ _ Hr1) as (_ & Hie1 & _).
  pose proof (run_inv _ _ _ Hr2) as (_ & Hie2 & _).
  assert (failure (Returns probs1 err1) = err1) as Hf1.
  { destruct err1 as [e1|]; [|done].
    destruct (ie_ret_some _ _ Hie1 probs1 e1 Hm1) as (j1 & o1 & _ & Hf).
    simpl. by rewrite (failure_is_real o1 e1 Hf). }
  split_and!; [done| |].
  - intros e ->. destruct (ie_ret_some _ _ Hie2 probs2 e Hm2) as (j & o & Hcj & Hf).
    exists j, o. split_and!; [done..|]. intros ->. simplify_eq.
    rewrite Hf1 in Hf. subst err1. by apply (ie_ret_some _ _ Hie1 probs1 e).
  - intros (j1 & o1 & Hc1 & Hfail) ->.
    destruct err1 as [e1|].
    + pose proof (proj1 (ie_ret_nil _ _ Hie2 probs2 Hm2 k _ Hc2)) as Hn.
      by rewrite Hf1 in Hn.
    + pose proof (proj1 (ie_ret_nil _ _ Hie1 probs1 Hm1 j1 o1 Hc1)) as Hn.
      rewrite Hn in Hfail. by destruct Hfail.
Qed.

Lemma insert_middle {A} (l1 l2 : list A) x y :
  <[length l1:=y]> (l1 ++ x :: l2) = l1 ++ y :: l2.
Proof. induction l1 as [|z l1 IH]; simpl; [done|]. by rewrite IH. Qed.

Lemma normal_Returns o :
  normal o = true → ∃ p err, o = Returns p err ∧ after_check o = Some (MSendProbs p).
Proof.
  destruct o as [p [e|]|r| |]; simpl; try done; intros Hn; exists p; eexists; split; try done.
  by destruct (is_errNotApplicable e).
Qed.

Lemma step_at_check c w ec rc (done rest : list (member_pc Problem)) co mn o pc :
  c !! length done = Some o → after_check o = Some pc →
  step c (Member (length done)) (State w ec rc (done ++ MCheck :: rest) co mn)
  = Some (State w ec rc (done ++ pc :: rest) co mn).
Proof.
  intros Hc Ha. apply step_trans. rewrite <- (insert_middle done rest MCheck pc).
  eapply T_check; [by apply list_lookup_middle|done..].
Qed.

Lemma step_at_send_probs c w ec rc (done rest : list (member_pc Problem)) co mn p :
  length (buf rc) < cap rc →
  step c (Member (length done)) (State w ec rc (done ++ MSendProbs p :: rest) co mn)
  = Some (State w ec (Chan (cap rc) (buf rc ++ [p]) (S (sent rc)) (rcvd rc))
                (done ++ MDone :: rest) co mn).
Proof.
  intros Hlt. apply step_trans. rewrite <- (insert_middle done rest (MSendProbs p) MDone).
  eapply T_send_probs; [by apply list_lookup_middle|done].
Qed.

Lemma step_at_done c w ec rc (done rest : list (member_pc Problem)) co mn :
  step c (Member (length done)) (State (S w) ec rc (done ++ MDone :: rest) co mn)
  = Some (State w ec rc (done ++ MExited :: rest) co mn).
Proof.
  apply step_trans. rewrite <- (insert_middle done rest MDone MExited).
  eapply T_done. by apply list_lookup_middle.
Qed.

(** One round of [sched_in_order]. *)
Lemma round_run c w ec n r (done rest : list (member_pc Problem)) co acc o :
  c !! length done = Some o → normal o = true → 0 < n →
  run c (round (length done))
      (State w ec (Chan n [] r r) (done ++ MCheck :: rest) co (ALoop (length done) acc))
  = Some (State w ec (Chan n [] (S r) (S r)) (done ++ MDone :: rest) co
                (ALoop (S (length done)) (acc ++ output c (length done)))).
Proof.
  intros Hc Hn Hpos. destruct (normal_Returns o Hn) as (p & err & -> & Ha).
  pose proof (lookup_lt_Some _ _ _ Hc) as Hlt.
  unfold round. cbn [run].
  rewrite (step_at_check _ _ _ _ _ _ _ _ _ _ Hc Ha). cbn [mbind option_bind].
  rewrite step_at_send_probs by done. cbn [mbind option_bind cap buf sent rcvd app].
  rewrite (proj2 (step_trans _ _ _ _)
             (T_recv_results c w ec (Chan n [p] (S r) r) (done ++ MDone :: rest) co
                (length done) acc p [] Hlt eq_refl)).
  cbn [mbind option_bind cap buf sent rcvd].
  by rewrite store_app, (output_Returns _ _ _ _ Hc).
Qed.

Lemma replicate_split {A} (x : A) j n :
  j < n → replicate (n - j) x = x :: replicate (n - S j) x.
Proof. intros Hlt. by replace (n - j) with (S (n - S j)) by lia. Qed.

Lemma in_order_rounds c j :
  (∀ k o, c !! k = Some o → normal o = true) → j ≤ length c →
  run c (concat (round <$> seq 0 j)) (init c)
  = Some (State (length c) (make_chan (length c)) (Chan (length c) [] j j)
                (replicate j MDone ++ replicate (length c - j) MCheck) CWait
                (ALoop j (concat (output c <$> seq 0 j)))).
Proof.
  intros Hall. induction j as [|j IH]; intros Hj.
  - simpl. unfold init, make_chan. by rewrite Nat.sub_0_r.
  - rewrite seq_S, fmap_app, concat_app, run_app, IH by lia.
    cbn [mbind option_bind Nat.add].
    change (concat (round <$> [j])) with (round j ++ []). rewrite app_nil_r.
    destruct (lookup_lt_is_Some_2 c j ltac:(lia)) as [o Hc].
    rewrite (replicate_split MCheck j (length c)) by lia.
    pose proof (round_run c (length c) (make_chan (length c)) (length c) j
                  (replicate j MDone) (replicate (length c - S j) MCheck) CWait
                  (concat (output c <$> seq 0 j)) o) as Hround.
    rewrite length_replicate in Hround. rewrite Hround; [|done|by eapply Hall|lia].
    rewrite fmap_app, concat_app.
    change (concat (output c <$> [j])) with (output c j ++ []). rewrite app_nil_r.
    by rewrite (replicate_S_end j), <- app_assoc.
Qed.

(** X10. A group whose members all complete normally can return everything:
    on the schedule where the caller takes the result of each member before
    the next one starts, the call returns a nil error and the outputs of all
    the members in their order in the group. *)
Theorem in_order_returns_all c :
  (∀ k o, c !! k = Some o → normal o = true) →
  ∃ s, run c (sched_in_order (length c)) (init c) = Some s ∧
       main s = AReturned (concat (output c <$> seq 0 (length c))) None.
Proof.
  intros Hall. unfold sched_in_order. rewrite run_app, in_order_rounds by done.
  cbn [mbind option_bind run].
  rewrite (proj2 (step_trans _ _ _ _)
             (T_exit c (length c) (make_chan (length c))
                (Chan (length c) [] (length c) (length c))
                (replicate (length c) MDone ++ replicate (length c - length c) MCheck)
                CWait (length c) (concat (output c <$> seq 0 (length c)))
                (Nat.lt_irrefl _))).
  cbn [mbind option_bind]. by eexists.
Qed.

(** One member of [sched_marker]. *)
Lemma whole_member_run c w n (out : list (list Problem)) r
    (done rest : list (member_pc Problem)) mn o :
  c !! length done = Some o → normal o = true → length out < n →
  run c (whole_member (length done))
      (State (S w) (make_chan n) (Chan n out r 0) (done ++ MCheck :: rest) CWait mn)
  = Some (State w (make_chan n) (Chan n (out ++ [output c (length done)]) (S r) 0)
                (done ++ MExited :: rest) CWait mn).
Proof.
  intros Hc Hn Hlt. destruct (normal_Returns o Hn) as (p & err & -> & Ha).
  unfold whole_member. cbn [run].
  rewrite (step_at_check _ _ _ _ _ _ _ _ _ _ Hc Ha). cbn [mbind option_bind].
  rewrite step_at_send_probs by done. cbn [mbind option_bind cap buf sent rcvd].
  rewrite step_at_done. cbn [mbind option_bind].
  by rewrite (output_Returns _ _ _ _ Hc).
Qed.

Lemma marker_members c j :
  (∀ k o, c !! k = Some o → normal o = true) → j ≤ length c →
  run c (concat (whole_member <$> seq 0 j)) (init c)
  = Some (State (length c - j) (make_chan (length c))
                (Chan (length c) (output c <$> seq 0 j) j 0)
                (replicate j MExited ++ replicate (length c - j) MCheck) CWait
                (ALoop 0 [])).
Proof.
  intros Hall. induction j as [|j IH]; intros Hj.
  - simpl. unfold init, make_chan. by rewrite Nat.sub_0_r.
  - rewrite seq_S, fmap_app, concat_app, run_app, IH by lia.
    cbn [mbind option_bind Nat.add].
    change (concat (whole_member <$> [j])) with (whole_member j ++ []).
    rewrite app_nil_r.
    destruct (lookup_lt_is_Some_2 c j ltac:(lia)) as [o Hc].
    rewrite (replicate_split MCheck j (length c)) by lia.
    replace (length c - j) with (S (length c - S j)) at 1 by lia.
    pose proof (whole_member_run c (length c - S j) (length c) (output c <$> seq 0 j) j
                  (replicate j MExited) (replicate (length c - S j) MCheck)
                  (ALoop 0 []) o) as Hmem.
    rewrite length_replicate in Hmem. rewrite Hmem; [|done|by eapply Hall|].
    + rewrite fmap_app. change (output c <$> [j]) with [output c j].
      by rewrite (replicate_S_end j), <- app_assoc.
    + rewrite length_fmap, length_seq. lia.
Qed.

(** X11. A group that is not empty and whose members all complete normally
    can lose everything: on the schedule where every member finishes and the
    waiting goroutine sends its marker before the caller's first [select],
    and the [select] takes [errChan], the call returns a nil error and no
    problem, while the outputs of all the members stay in [resultsChan]. *)
Theorem marker_first_returns_nothing c :
  c ≠ [] → (∀ k o, c !! k = Some o → normal o = true) →
  ∃ s, run c (sched_marker (length c)) (init c) = Some s ∧
       main s = AReturned [] None ∧
       buf (resultsChan s) = output c <$> seq 0 (length c).
Proof.
  intros Hne Hall. assert (0 < length c) as Hpos by (destruct c; simpl; [done|lia]).
  unfold sched_marker. rewrite run_app, marker_members by done.
  rewrite !Nat.sub_diag. cbn [mbind option_bind run].
  set (rc := Chan (length c) (output c <$> seq 0 (length c)) (length c) 0).
  set (ms := replicate (length c) MExited ++ replicate 0 MCheck).
  rewrite (proj2 (step_trans _ _ _ _) (T_wake c (make_chan (length c)) rc ms (ALoop 0 []))).
  cbn [mbind option_bind].
  rewrite (proj2 (step_trans _ _ _ _)
             (T_nil c 0 (make_chan (length c)) rc ms (ALoop 0 []) Hpos)).
  cbn [mbind option_bind make_chan cap buf sent rcvd app].
  rewrite (proj2 (step_trans _ _ _ _)
             (T_recv_err c 0 (Chan (length c) [None] 1 0) rc ms CExited 0 [] None []
                Hpos eq_refl)).
  cbn [mbind option_bind]. by eexists.
Qed.


Lemma events_step c l s s' :
  inv_count c s → step c l s = Some s' →
  rcvd (resultsChan s) + rcvd (errChan s) ≤ length c →
  rcvd (resultsChan s') + rcvd (errChan s') ≤ length c.
Proof.
  intros Hic Hs Hle. pose proof (ic_main _ _ Hic) as Hmn.
  apply step_trans in Hs. step_cases Hs; simpl in *; lia.
Qed.

Lemma events_run c sched s s' :
  inv c s → run c sched s = Some s' →
  rcvd (resultsChan s) + rcvd (errChan s) ≤ length c →
  rcvd (resultsChan s') + rcvd (errChan s') ≤ length c.
Proof.
  revert s. induction sched as [|l sched IH]; intros s Hinv Hr Hle; simpl in Hr;
    [by simplify_eq|].
  destruct (step c l s) as [s1|] eqn:Hs; [simpl in Hr|done].
  apply (IH s1); [by eapply inv_step|done|].
  destruct Hinv as (Hic & _). by eapply events_step.
Qed.

(** X13. The caller takes at most [len(c)] events from the two channels
    together, and at most one of them from [errChan]; while it is in its
    loop, the loop counter is the number of results events taken and nothing
    was taken from [errChan]. *)
Theorem caller_takes_at_most_len_events c sched s :
  run c sched (init c) = Some s →
  rcvd (resultsChan s) + rcvd (errChan s) ≤ length c ∧
  rcvd (errChan s) ≤ 1 ∧
  (∀ n res, main s = ALoop n res → rcvd (resultsChan s) = n ∧ rcvd (errChan s) = 0).
Proof.
  intros Hr. pose proof (run_inv _ _ _ Hr) as (Hic & _ & _).
  pose proof (ic_main _ _ Hic) as Hmn. split_and!.
  - eapply (events_run c sched (init c) s); [apply inv_init|done|simpl; lia].
  - destruct (main s); lia.
  - intros n res Hm. rewrite Hm in Hmn. lia.
Qed.

(** X15. A member whose call of [Check] ends its goroutine with
    [runtime.Goexit] sends nothing: its goroutine is only ever at the call,
    at [wg.Done()] or finished after it.  With such a member the call never
    returns through the end of its loop: whenever it has returned it had
    taken one event from [errChan] and fewer than [len(c)] results.  When
    moreover no member fails or blocks for ever, then once nothing can move
    the waiting goroutine has sent its marker and the call has returned a
    nil error. *)
Theorem goexit_member_only_reports_done c k sched s :
  c !! k = Some Goexits → run c sched (init c) = Some s →
  (members s !! k = Some MCheck ∨ members s !! k = Some MDone ∨
   members s !! k = Some MExited) ∧
  (∀ res ret, main s = AReturned res ret →
     rcvd (errChan s) = 1 ∧ rcvd (resultsChan s) < length c) ∧
  ((∀ j o, c !! j = Some o → failure o = None ∧ o ≠ Hangs) → terminal c s →
     coord s = CExited ∧ ∃ res, main s = AReturned res None).
Proof.
  intros Hc Hr. pose proof (run_inv _ _ _ Hr) as Hinv.
  pose proof Hinv as (Hic & Hie & _).
  destruct (Forall2_lookup_l _ _ _ _ _ (ic_pcs _ _ Hic) Hc) as (pc & Hk & Hok).
  assert (rcvd (resultsChan s) < length c) as Hlt.
  { assert (res_sent Goexits pc = false) as Hrs by (by destruct pc).
    pose proof (count2_lt res_sent c (members s) k _ pc Hc Hk Hrs).
    pose proof (ic_sent_res _ _ Hic). pose proof (ic_buf_res _ _ Hic). lia. }
  split_and!.
  - destruct pc; simpl in Hok; try done; auto.
  - intros res ret Hm. split; [|done].
    pose proof (ic_main _ _ Hic) as Hmn. rewrite Hm in Hmn.
    destruct Hmn as [?|(_ & ? & _)]; [done|lia].
  - intros Hgood Hterm. split.
    + apply (all_done_waiter_ends c s Hinv Hterm).
      * intros ->. done.
      * intros j o Hcj. destruct (Hgood j o Hcj) as [Hf Hno]. by destruct o.
    + destruct (terminal_returned c s Hinv Hterm) as (res & [e|] & Hm).
      * right. intros j o Hcj. by destruct (Hgood j o Hcj).
      * destruct (ie_ret_some _ _ Hie res e Hm) as (j & o & Hcj & Hf).
        destruct (Hgood j o Hcj) as [Hf' _]. congruence.
      * by exists res.
Qed.

End GroupProofs.

(* ===================================================================== *)
(** ** The table of validation methods *)
(* ===================================================================== *)

(** C8. [isValid] is a total function that answers [true] exactly on the four
    literals "http-01", "dns-01", "tls-sni-01" and "tls-sni-02"; it answers
    [false] on "http-02" and on the empty string. *)
Theorem isValid_exactly_four :
  (∀ m : ValidationMethod,
     isValid m = true ↔
     m = "http-01"%string ∨ m = "dns-01"%string ∨
     m = "tls-sni-01"%string ∨ m = "tls-sni-02"%string) ∧
  isValid "http-02"%string = false ∧
  isValid ""%string = false.
Proof.
  split; [|split; reflexivity].
  intros m. unfold isValid, validMethods. split.
  - intros Hv.
    destruct (decide (HTTP01 = m)) as [<-|N1]; [by left|].
    destruct (decide (DNS01 = m)) as [<-|N2]; [by right; left|].
    destruct (decide (TLSSNI01 = m)) as [<-|N3]; [by right; right; left|].
    destruct (decide (TLSSNI02 = m)) as [<-|N4]; [by right; right; right|].
    rewrite !lookup_insert_ne, lookup_empty in Hv by done. done.
  - intros [->|[->|[->| ->]]]; reflexivity.
Qed.

Lemma isValid_exactly_four_witness : isValid "dns-01"%string = true.
Proof.
  apply (proj1 isValid_exactly_four "dns-01"%string). right; left. reflexivity.
Defined.

(* ===================================================================== *)
(** ** The group on concrete inputs *)
(* ===================================================================== *)

(** C1 (the code departs from it).  Both members of [g_clean] complete
    normally, one with a finding and one with the sentinel and no problem.
    Under [sched_marker_first] the call returns no problem and a nil error:
    the nil marker of the waiting goroutine is the event that the [select]
    takes, and the finding stays behind in [resultsChan]. *)
Theorem marker_race_drops_problems :
  run g_clean sched_marker_first (init g_clean) =
  Some (State 0 (Chan 2 [] 1 1) (Chan 2 [findings; []] 2 0) [MExited; MExited] CExited
              (AReturned [] None)).
Proof. reflexivity. Qed.

(** C7 (the code departs from it).  Two runs of the same group [g_single],
    whose only member returns the same pair both times: one returns the
    finding, the other returns nothing, and the two results are not the same
    multiset. *)
Theorem two_runs_two_multisets :
  ∃ s1 s2 : state string,
    run g_single [Member 0; Member 0; SelectResults; LoopExit] (init g_single) = Some s1 ∧
    run g_single [Member 0; Member 0; Member 0; Coordinator; Coordinator; SelectErr]
        (init g_single) = Some s2 ∧
    main s1 = AReturned findings None ∧
    main s2 = AReturned [] None ∧
    ¬ (findings ≡ₚ []).
Proof.
  eexists _, _. split_and!; [reflexivity..|].
  intros H. by apply Permutation_nil_r in H.
Qed.

(** C6 (the code departs from it).  The only member of [g_sentinel] returns a
    finding together with the sentinel.  Its goroutine sends the finding on
    [resultsChan] and executes [wg.Done()]; the waiting goroutine sends its
    nil marker; the [select] of the caller takes the marker.  The call
    returns no problem and a nil error: the finding of the member that is
    not applicable never gets to the accumulator. *)
Theorem sentinel_member_problems_dropped :
  run g_sentinel [Member 0; Member 0; Member 0; Coordinator; Coordinator; SelectErr]
      (init g_sentinel) =
  Some (State 0 (Chan 1 [] 1 1) (Chan 1 [findings] 1 0) [MExited] CExited
              (AReturned [] None)).
Proof. reflexivity. Qed.


(** C4 as stated fails: next to a member that panics, the call can return the
    error of another member, as in [g_panic] when member 1 is first. *)
Lemma other_failure_wins_over_panic :
  ¬ (∀ (c : list (outcome string)) k r sched s probs err,
       c !! k = Some (Panics r) → run c sched (init c) = Some s →
       main s = AReturned probs err → err = Some (panic_error r)).
Proof.
  intros H.
  by pose proof (H g_panic 0 _ [Member 1; Member 1; SelectErr] _ _ _
                   eq_refl eq_refl eq_refl).
Qed.


(** [real_error_returned_with_partial_results] on [g_error], member 1, after
    [sched_error]. *)
Lemma real_error_returned_with_partial_results_witness :
  (g_error !! 1 = Some (Returns [] (Some boom)) ∧ is_real_error (Some boom) = true ∧
   run g_error sched_error (init g_error) = Some s_error) ∧
  (length sched_error ≤ 4 * length g_error + 3 ∧
   (terminal g_error s_error → ∃ probs e', main s_error = AReturned probs (Some e')) ∧
   (∀ probs err, main s_error = AReturned probs err →
      err ≠ None ∧ rcvd (errChan s_error) = 1 ∧
      ∃ ks : list nat, NoDup ks ∧ (1 ∉ ks) ∧
        length ks = rcvd (resultsChan s_error) ∧
        (∀ j, j ∈ ks → ∃ o, g_error !! j = Some o ∧ normal o = true) ∧
        probs = concat (output g_error <$> ks)) ∧
   (∀ n acc x tl, main s_error = ALoop n acc → buf (errChan s_error) = x :: tl →
      ∃ s', step g_error SelectErr s_error = Some s' ∧ main s' = AReturned acc x) ∧
   (∀ sched' s', run g_error sched' s_error = Some s' →
      ∃ rest, accumulator (main s') = accumulator (main s_error) ++ rest)).
Proof.
  split; [split_and!; reflexivity|].
  apply (real_error_returned_with_partial_results g_error 1 [] boom sched_error s_error);
    reflexivity.
Defined.

(** [panic_recovered_and_reported] on [g_panic], member 0, after [sched_panic]. *)
Lemma panic_recovered_and_reported_witness :
  (g_panic !! 0 = Some (Panics "index out of range"%string) ∧
   run g_panic sched_panic (init g_panic) = Some s_panic) ∧
  (length sched_panic ≤ 4 * length g_panic + 3 ∧
   (members s_panic !! 0 = Some MCheck ∨
    members s_panic !! 0 = Some (MRecover "index out of range"%string) ∨
    members s_panic !! 0 = Some MExitedPanic) ∧
   (members s_panic !! 0 = Some MExitedPanic →
      Some (panic_error "index out of range"%string) ∈ buf (errChan s_panic) ∨
      ∃ probs, main s_panic = AReturned probs (Some (panic_error "index out of range"%string))) ∧
   (terminal g_panic s_panic →
      members s_panic !! 0 = Some MExitedPanic ∧
      ∃ probs e', main s_panic = AReturned probs (Some e')) ∧
   (∀ probs err, main s_panic = AReturned probs err →
      ∃ e' j o, err = Some e' ∧ g_panic !! j = Some o ∧ failure o = Some e') ∧
   ((∀ j o, g_panic !! j = Some o → j ≠ 0 → failure o = None) →
      ∀ probs err, main s_panic = AReturned probs err →
        err = Some (panic_error "index out of range"%string)) ∧
   (∀ s', step g_panic (Member 0) s_panic = Some s' →
      resultsChan s' = resultsChan s_panic ∧ main s' = main s_panic ∧
      wg s' = wg s_panic ∧
      ∀ j, j ≠ 0 → members s' !! j = members s_panic !! j)).
Proof.
  split; [split_and!; reflexivity|].
  apply (panic_recovered_and_reported g_panic 0 "index out of range"%string
           sched_panic s_panic); reflexivity.
Defined.

(** [channel_traffic_and_capacity] on [g_error] after [sched_error]. *)
Lemma channel_traffic_and_capacity_witness :
  run g_error sched_error (init g_error) = Some s_error ∧
  (sent (resultsChan s_error) ≤ length g_error ∧
   sent (errChan s_error) ≤ length g_error + 1 ∧
   cap (resultsChan s_error) = length g_error ∧
   cap (errChan s_error) = length g_error ∧
   (∀ probs err, main s_error = AReturned probs err → rcvd (errChan s_error) = 1 →
      (∀ k pc, members s_error !! k = Some pc → at_send pc = true →
         is_Some (step g_error (Member k) s_error)) ∧
      (coord s_error = CSend → is_Some (step g_error Coordinator s_error)) ∧
      (terminal g_error s_error →
         (∀ k pc, members s_error !! k = Some pc → at_send pc = false) ∧
         coord s_error ≠ CSend))).
Proof.
  split; [reflexivity|].
  apply (channel_traffic_and_capacity g_error sched_error s_error); reflexivity.
Defined.

(** [sentinel_is_not_an_error] on [g_clean] after [sched_results_first]. *)
Lemma sentinel_is_not_an_error_witness :
  run g_clean sched_results_first (init g_clean) = Some s_clean ∧
  ((∀ ptr text,
      is_errNotApplicable (ErrorString ptr text) = true ↔ ptr = errNotApplicable_ptr) ∧
   (∀ text, is_errNotApplicable (Errorf text) = false) ∧
   (∀ probs : list string,
      after_check (Returns probs (Some errNotApplicable)) = Some (MSendProbs probs) ∧
      after_check (Returns probs None) = Some (MSendProbs probs)) ∧
   run (sentinel_as_nil <$> g_clean) sched_results_first
       (init (sentinel_as_nil <$> g_clean)) = Some s_clean ∧
   (∀ k probs pc, g_clean !! k = Some (Returns probs (Some errNotApplicable)) →
      members s_clean !! k = Some pc → past_send pc = true →
      ∃ ks1 ks2 : list nat,
        k ∈ ks1 ++ ks2 ∧ output g_clean k = probs ∧
        buf (resultsChan s_clean) = output g_clean <$> ks2 ∧
        accumulator (main s_clean) = concat (output g_clean <$> ks1)) ∧
   (∀ o : outcome string, is_Some (failure o) ↔
      (∃ r, o = Panics r) ∨
      (∃ probs e, o = Returns probs (Some e) ∧ is_errNotApplicable e = false)) ∧
   (∀ probs err, main s_clean = AReturned probs err →
      (err ≠ None ↔ ∃ k o, g_clean !! k = Some o ∧ is_Some (failure o)))).
Proof.
  split; [reflexivity|].
  apply (sentinel_is_not_an_error g_clean sched_results_first s_clean); reflexivity.
Defined.

(** [group_error_never_sentinel] on [g_error] after [sched_error]. *)
Lemma group_error_never_sentinel_witness :
  (run g_error sched_error (init g_error) = Some s_error ∧
   main s_error = AReturned findings (Some boom)) ∧
  ((Some boom = None ∨
    (∃ k p e, Some boom = Some e ∧ g_error !! k = Some (Returns p (Some e)) ∧
              is_errNotApplicable e = false) ∨
    (∃ k r, Some boom = Some (panic_error r) ∧ g_error !! k = Some (Panics r))) ∧
   (∀ e, Some boom = Some e → is_errNotApplicable e = false)).
Proof.
  split; [split; reflexivity|].
  apply (group_error_never_sentinel g_error sched_error s_error findings (Some boom));
    reflexivity.
Defined.

(** [empty_group_returns_at_once] after [sched_empty]. *)
Lemma empty_group_returns_at_once_witness :
  run [] sched_empty (init []) = Some s_empty ∧
  ((main s_empty = ALoop 0 [] ∨ main s_empty = AReturned [] None) ∧
   rcvd (errChan s_empty) = 0 ∧ rcvd (resultsChan s_empty) = 0 ∧
   step [] SelectResults s_empty = None ∧ step [] SelectErr s_empty = None ∧
   (main s_empty = ALoop 0 [] →
      ∃ s', step [] LoopExit s_empty = Some s' ∧ main s' = AReturned [] None) ∧
   (terminal [] s_empty → main s_empty = AReturned [] None)).
Proof.
  split; [reflexivity|].
  apply (empty_group_returns_at_once sched_empty s_empty); reflexivity.
Defined.

(* ===================================================================== *)
(** ** The further properties on concrete inputs *)
(* ===================================================================== *)

(** [member_never_blocked] on member 1 of [g_error], at [errChan <- err]. *)
Lemma member_never_blocked_witness :
  (run g_error sched_at_send (init g_error) = Some s_at_send ∧
   g_error !! 1 = Some (Returns [] (Some boom)) ∧
   Returns [] (Some boom) ≠ Hangs (Problem:=string) ∧
   members s_at_send !! 1 = Some (MSendErr boom) ∧
   MSendErr boom ≠ MExited (Problem:=string) ∧
   MSendErr boom ≠ MExitedPanic (Problem:=string)) ∧
  (is_Some (step g_error (Member 1) s_at_send) ∧
   (MSendErr boom = MDone (Problem:=string) → 0 < wg s_at_send)).
Proof.
  split; [split_and!; (reflexivity || discriminate)|].
  apply (member_never_blocked g_error sched_at_send s_at_send 1
           (Returns [] (Some boom)) (MSendErr boom));
    (reflexivity || discriminate).
Defined.

(** [hung_member_hangs_the_call] on [g_hang], after the result of member 0
    is taken. *)
Lemma hung_member_hangs_the_call_witness :
  (g_hang !! 1 = Some Hangs ∧
   (∀ j o, g_hang !! j = Some o → failure o = None) ∧
   run g_hang sched_hang (init g_hang) = Some s_hang) ∧
  (∃ i probs, main s_hang = ALoop i probs ∧ i < length g_hang).
Proof.
  assert (∀ j o, g_hang !! j = Some o → failure o = None) as Hnf.
  { intros [|[|j]] o Hj; simpl in Hj; [injection Hj as <-..|discriminate]; reflexivity. }
  split; [split_and!; [reflexivity|exact Hnf|reflexivity]|].
  apply (hung_member_hangs_the_call g_hang sched_hang s_hang 1); [reflexivity|exact Hnf|reflexivity].
Defined.

(** [late_deliveries_change_nothing] on [g_error]: both members execute
    [wg.Done()] after the return. *)
Lemma late_deliveries_change_nothing_witness :
  (run g_error sched_error (init g_error) = Some s_error ∧
   main s_error = AReturned findings (Some boom) ∧
   run g_error sched_late s_error = Some s_late) ∧
  (main s_late = AReturned findings (Some boom) ∧
   rcvd (errChan s_late) = rcvd (errChan s_error) ∧
   rcvd (resultsChan s_late) = rcvd (resultsChan s_error)).
Proof.
  split; [split_and!; reflexivity|].
  apply (late_deliveries_change_nothing g_error sched_error s_error sched_late s_late);
    reflexivity.
Defined.

(** [head_of_errChan_is_returned] on [g_error]: the error of member 1 is at
    the head of [errChan], then the caller takes it. *)
Lemma head_of_errChan_is_returned_witness :
  (run g_error sched_error_sent (init g_error) = Some s_error_sent ∧
   main s_error_sent = ALoop 0 [] ∧ buf (errChan s_error_sent) = [Some boom] ∧
   run g_error [SelectErr] s_error_sent = Some s_error_taken ∧
   main s_error_taken = AReturned [] (Some boom)) ∧
  Some boom = Some boom.
Proof.
  split; [split_and!; reflexivity|].
  apply (head_of_errChan_is_returned g_error sched_error_sent s_error_sent 0 []
           (Some boom) [] [SelectErr] s_error_taken [] (Some boom)); reflexivity.
Defined.

(** [waiter_ends_iff_all_done] on [g_single], run until nothing can move. *)
Lemma waiter_ends_iff_all_done_witness :
  (run g_single sched_single_end (init g_single) = Some s_single_end ∧
   terminal g_single s_single_end) ∧
  ((coord s_single_end = CExited ↔
    g_single ≠ [] ∧ ∀ k o, g_single !! k = Some o → runs_done o = true) ∧
   (coord s_single_end = CWait ↔ ∃ k o, g_single !! k = Some o ∧ runs_done o = false) ∧
   (coord s_single_end = CSend ↔ g_single = [])).
Proof.
  assert (terminal g_single s_single_end) as Hterm.
  { intros [[|k]| | | |]; reflexivity. }
  split; [split; [reflexivity|exact Hterm]|].
  apply (waiter_ends_iff_all_done g_single sched_single_end s_single_end);
    [reflexivity|exact Hterm].
Defined.

(** [every_run_is_short] on [g_error] after [sched_error]. *)
Lemma every_run_is_short_witness :
  run g_error sched_error (init g_error) = Some s_error ∧
  length sched_error + fuel g_error s_error ≤ 4 * length g_error + 3.
Proof.
  split; [reflexivity|].
  apply (every_run_is_short g_error sched_error s_error). reflexivity.
Defined.

(** [nested_group_errors]: the inner group is [g_error], whose call ends in
    [s_error]; the outer group is [g_outer]. *)
Lemma nested_group_errors_witness :
  (run g_error sched_error (init g_error) = Some s_error ∧
   main s_error = AReturned findings (Some boom) ∧
   g_outer !! 0 = Some (Returns findings (Some boom)) ∧
   run g_outer sched_outer (init g_outer) = Some s_outer ∧
   main s_outer = AReturned [] (Some boom)) ∧
  (failure (Returns findings (Some boom)) = Some boom ∧
   (∀ e, Some boom = Some e →
      ∃ j o, g_outer !! j = Some o ∧ failure o = Some e ∧
        (j = 0 → ∃ j1 o1, g_error !! j1 = Some o1 ∧ failure o1 = Some e)) ∧
   ((∃ j1 o1, g_error !! j1 = Some o1 ∧ is_Some (failure o1)) → Some boom ≠ None)).
Proof.
  split; [split_and!; reflexivity|].
  apply (nested_group_errors g_error sched_error s_error findings (Some boom)
           g_outer 0 sched_outer s_outer [] (Some boom)); reflexivity.
Defined.

Lemma g_clean_normal : ∀ k o, g_clean !! k = Some o → normal o = true.
Proof.
  intros [|[|k]] o Hk; simpl in Hk; [injection Hk as <-..|discriminate]; reflexivity.
Defined.



(** [in_order_returns_all] on [g_clean]. *)
Lemma in_order_returns_all_witness :
  (∀ k o, g_clean !! k = Some o → normal o = true) ∧
  ∃ s, run g_clean (sched_in_order (length g_clean)) (init g_clean) = Some s ∧
       main s = AReturned (concat (output g_clean <$> seq 0 (length g_clean))) None.
Proof.
  split; [exact g_clean_normal|].
  apply (in_order_returns_all g_clean). exact g_clean_normal.
Defined.

(** [marker_first_returns_nothing] on [g_clean]. *)
Lemma marker_first_returns_nothing_witness :
  (g_clean ≠ [] ∧ ∀ k o, g_clean !! k = Some o → normal o = true) ∧
  ∃ s, run g_clean (sched_marker (length g_clean)) (init g_clean) = Some s ∧
       main s = AReturned [] None ∧
       buf (resultsChan s) = output g_clean <$> seq 0 (length g_clean).
Proof.
  split; [split; [discriminate|exact g_clean_normal]|].
  apply (marker_first_returns_nothing g_clean); [discriminate|exact g_clean_normal].
Defined.


(** [caller_takes_at_most_len_events] on [g_error] after [sched_error]. *)
Lemma caller_takes_at_most_len_events_witness :
  run g_error sched_error (init g_error) = Some s_error ∧
  (rcvd (resultsChan s_error) + rcvd (errChan s_error) ≤ length g_error ∧
   rcvd (errChan s_error) ≤ 1 ∧
   (∀ n res, main s_error = ALoop n res →
      rcvd (resultsChan s_error) = n ∧ rcvd (errChan s_error) = 0)).
Proof.
  split; [reflexivity|].
  apply (caller_takes_at_most_len_events g_error sched_error s_error). reflexivity.
Defined.

(** [goexit_member_only_reports_done] on [g_goexit], member 1, after
    [sched_goexit]. *)
Lemma goexit_member_only_reports_done_witness :
  (g_goexit !! 1 = Some Goexits ∧
   run g_goexit sched_goexit (init g_goexit) = Some s_goexit) ∧
  ((members s_goexit !! 1 = Some MCheck ∨ members s_goexit !! 1 = Some MDone ∨
    members s_goexit !! 1 = Some MExited) ∧
   (∀ res ret, main s_goexit = AReturned res ret →
      rcvd (errChan s_goexit) = 1 ∧ rcvd (resultsChan s_goexit) < length g_goexit) ∧
   ((∀ j o, g_goexit !! j = Some o → failure o = None ∧ o ≠ Hangs) →
    terminal g_goexit s_goexit →
      coord s_goexit = CExited ∧ ∃ res, main s_goexit = AReturned res None)).
Proof.
  split; [split; reflexivity|].
  apply (goexit_member_only_reports_done g_goexit 1 sched_goexit s_goexit); reflexivity.
Defined.
